(** * The WebSocket hub of gas-town-demo (package handlers)

    A shallow embedding of the hub, the two pumps of a client and the
    connection entry point, with the invariant of the channel registry.

    Pointers to [Client] values are addresses into a heap of client
    records, so that the hub and the pumps share the mailbox they mutate.
    A Go channel is a bounded queue with a closed flag; sending on a closed
    channel and closing it twice panic.  [Register], [Unregister] and
    [Broadcast] hold the lock of the hub and are transitions of their own;
    a turn of the loop of a pump is a transition too.  The sends of one
    [Broadcast] go to mailboxes of different clients, so the order of the
    range over the member map does not show in the world it leaves.
    What the transport, the upgrader and the clock return comes with the
    input of a transition; the JSON codec is a pair of functions the
    development is parametric in. *)

From stdpp Require Import gmap strings list fin_maps.
From Stdlib Require DecimalString DecimalZ DecimalPos.

(** ** Results of operations that can panic *)

Inductive result (A : Type) : Type :=
| Ok (a : A)
| Panic (reason : string).
Arguments Ok {A} a.
Arguments Panic {A} reason.

#[global] Instance result_bind : MBind result := λ A B k r,
  match r with
  | Ok a => k a
  | Panic reason => Panic reason
  end.

(** ** Payloads and the wire record *)

Abbreviation payload := (list Byte.byte).

(** [type WSMessage struct], five string fields. *)
Record WSMessage : Type := mkWSMessage {
  Type_ : string;
  ChannelID : string;
  Author : string;
  Content : string;
  CreatedAt : string
}.

(** ** Go channels of payloads: [chan []byte] *)

Record Chan : Type := mkChan {
  buf : list payload;
  cap : nat;
  closed : bool
}.

(** [make(chan []byte, n)] *)
Definition make_chan (n : nat) : Chan := mkChan [] n false.

(** [select { case ch <- m: default: }]: the flag tells whether the send
    case was taken.  Sending on a closed channel panics, also in a select. *)
Definition chan_trysend (ch : Chan) (m : payload) : result (Chan * bool) :=
  if closed ch then Panic "send on closed channel"
  else if (length (buf ch) <? cap ch)%nat
       then Ok (mkChan (buf ch ++ [m]) (cap ch) false, true)
       else Ok (ch, false).

(** [close(ch)] *)
Definition chan_close (ch : Chan) : result Chan :=
  if closed ch then Panic "close of closed channel"
  else Ok (mkChan (buf ch) (cap ch) true).

(** One turn of [for m := range ch]. *)
Inductive recv : Type :=
| RecvVal (m : payload) (ch' : Chan)
| RecvDone
| RecvBlock.

Definition chan_recv (ch : Chan) : recv :=
  match buf ch with
  | m :: rest => RecvVal m (mkChan rest (cap ch) (closed ch))
  | [] => if closed ch then RecvDone else RecvBlock
  end.

(** ** Clients and the world *)

Abbreviation ptr := nat.

(** The transport: all the hub needs of [*websocket.Conn] is whether
    [Close] was called on it. *)
Record Conn : Type := mkConn { conn_closed : bool }.

(** [type Client struct].  The [hub] field always points to the one hub of
    the handler, which is the [channels] field of the world. *)
Record Client : Type := mkClient {
  conn : Conn;
  send : Chan;
  channelID : string
}.

Definition set_send (ch : Chan) (cl : Client) : Client :=
  mkClient (conn cl) ch (channelID cl).

Definition set_conn (cn : Conn) (cl : Client) : Client :=
  mkClient cn (send cl) (channelID cl).

(** What the program does that an observer can see, in order. *)
Inductive Event : Type :=
| EvLog (line : string)
| EvSend (c : ptr) (m : payload)
| EvSkip (c : ptr) (m : payload)
| EvChanClose (c : ptr)
| EvDeleteChannel (T : string)
| EvWrite (c : ptr) (m : payload) (ok : bool)
| EvConnClose (c : ptr)
| EvHttpError (code : nat) (body : string).

(** [h.channels] ([map[string]map[*Client]bool]), the client records the
    pointers lead to, the next free address, and the running goroutines. *)
Record World : Type := mkWorld {
  channels : gmap string (gmap ptr bool);
  heap : gmap ptr Client;
  next : ptr;
  readers : gset ptr;
  writers : gset ptr
}.

(** [NewWSHandler()] / [NewHub()] *)
Definition NewHub : World := mkWorld ∅ ∅ 0 ∅ ∅.

Definition set_channels (chs : gmap string (gmap ptr bool)) (w : World) : World :=
  mkWorld chs (heap w) (next w) (readers w) (writers w).

Definition set_heap (hp : gmap ptr Client) (w : World) : World :=
  mkWorld (channels w) hp (next w) (readers w) (writers w).

Definition deref (w : World) (c : ptr) : result Client :=
  match heap w !! c with
  | Some cl => Ok cl
  | None => Panic "invalid memory address or nil pointer dereference"
  end.

(** ** The hub *)

(** [func (h *Hub) Register(client *Client)] *)
Definition Register (c : ptr) (w : World) : result (World * list Event) :=
  cl ← deref w c;
  let chs1 :=
    match channels w !! channelID cl with
    | None => <[channelID cl := ∅]> (channels w)
    | Some _ => channels w
    end in
  let chs2 := alter (λ clients, <[c := true]> clients) (channelID cl) chs1 in
  Ok (set_channels chs2 w,
      [EvLog ("Client connected to channel " +:+ channelID cl)]).

(** The block [if _, exists := clients[client]; exists { ... }] of
    [Unregister]: the member set and the heap it leaves. *)
Definition Unregister_remove (c : ptr) (cl : Client) (clients : gmap ptr bool)
    (w : World) : result (gmap ptr bool * gmap ptr Client * list Event) :=
  match clients !! c with
  | Some _ =>
      ch ← chan_close (send cl);
      Ok (delete c clients, <[c := set_send ch cl]> (heap w),
          [EvChanClose c;
           EvLog ("Client disconnected from channel " +:+ channelID cl)])
  | None => Ok (clients, heap w, [])
  end.

(** [func (h *Hub) Unregister(client *Client)].  The inner map is shared
    with [h.channels], so the deletion is written back into the entry. *)
Definition Unregister (c : ptr) (w : World) : result (World * list Event) :=
  cl ← deref w c;
  match channels w !! channelID cl with
  | Some clients =>
      '(clients', hp, ev) ← Unregister_remove c cl clients w;
      (* Clean up empty channels *)
      if decide (size clients' = 0)
      then Ok (set_heap hp (set_channels (delete (channelID cl) (channels w)) w),
               ev ++ [EvDeleteChannel (channelID cl)])
      else Ok (set_heap hp (set_channels (<[channelID cl := clients']> (channels w)) w),
               ev)
  | None => Ok (w, [])
  end.

(** The body of [for client := range clients] in [Broadcast], over the
    members in the order the range yields them. *)
Fixpoint Broadcast_range (cs : list ptr) (message : payload) (w : World)
  : result (World * list Event) :=
  match cs with
  | [] => Ok (w, [])
  | c :: cs' =>
      cl ← deref w c;
      '(ch, sent) ← chan_trysend (send cl) message;
      '(w', ev) ← Broadcast_range cs' message (set_heap (<[c := set_send ch cl]> (heap w)) w);
      Ok (w', (if sent : bool then EvSend c message else EvSkip c message) :: ev)
  end.

(** [func (h *Hub) Broadcast(channelID string, message []byte)] *)
Definition Broadcast (T : string) (message : payload) (w : World)
  : result (World * list Event) :=
  match channels w !! T with
  | Some clients => Broadcast_range (map_to_list clients).*1 message w
  | None => Ok (w, [])
  end.

(** ** The pumps and the entry point *)

Definition set_readers (rs : gset ptr) (w : World) : World :=
  mkWorld (channels w) (heap w) (next w) rs (writers w).

Definition set_writers (ws : gset ptr) (w : World) : World :=
  mkWorld (channels w) (heap w) (next w) (readers w) ws.

(** [c.conn.Close()] *)
Definition conn_Close (c : ptr) (w : World) : World :=
  set_heap (alter (set_conn (mkConn true)) c (heap w)) w.

(** What [c.conn.ReadMessage()] returned: an error (and whether
    [websocket.IsUnexpectedCloseError] holds of it) or a raw message. *)
Inductive ReadResult : Type :=
| ReadErr (unexpected : bool)
| ReadMsg (rawMessage : payload).

(** Lines 120-125: the fields [readPump] sets on the decoded message;
    [now] is [time.Now().UTC().Format(time.RFC3339)]. *)
Definition stamp (bound now : string) (msg : WSMessage) : WSMessage :=
  let msg1 := mkWSMessage (Type_ msg) bound (Author msg) (Content msg) (CreatedAt msg) in
  let msg2 := mkWSMessage "message" (ChannelID msg1) (Author msg1) (Content msg1) (CreatedAt msg1) in
  if decide (CreatedAt msg2 = "")
  then mkWSMessage (Type_ msg2) (ChannelID msg2) (Author msg2) (Content msg2) now
  else msg2.

(** The deferred function of [readPump]. *)
Definition readPump_exit (c : ptr) (w : World) : result (World * list Event) :=
  '(w1, ev) ← Unregister c w;
  Ok (set_readers (readers w1 ∖ {[c]}) (conn_Close c w1), ev ++ [EvConnClose c]).

(** The deferred call of [writePump]. *)
Definition writePump_exit (c : ptr) (w : World) : World * list Event :=
  (set_writers (writers w ∖ {[c]}) (conn_Close c w), [EvConnClose c]).

Section Handlers.

(** [json.Unmarshal] into a zero [WSMessage] and [json.Marshal] of one;
    [None] is a non-nil error. *)
Context (json_Unmarshal : payload → option WSMessage).
Context (json_Marshal : WSMessage → option payload).

(** One turn of the loop of [readPump]; the [break] runs the deferred
    function and ends the goroutine. *)
Definition readPump_iter (c : ptr) (rd : ReadResult) (now : string) (w : World)
  : result (World * list Event) :=
  cl ← deref w c;
  match rd with
  | ReadErr unexpected =>
      '(w', ev) ← readPump_exit c w;
      Ok (w', (if unexpected : bool then [EvLog "WebSocket error"] else []) ++ ev)
  | ReadMsg rawMessage =>
      match json_Unmarshal rawMessage with
      | None => Ok (w, [EvLog "Invalid message format"])
      | Some msg =>
          let msg := stamp (channelID cl) now msg in
          match json_Marshal msg with
          | None => Ok (w, [EvLog "Failed to marshal message"])
          | Some outMsg => Broadcast (channelID cl) outMsg w
          end
      end
  end.

(** One turn of [for message := range c.send] in [writePump];
    [write_ok] tells whether [c.conn.WriteMessage] returned nil. *)
Definition writePump_iter (c : ptr) (write_ok : bool) (w : World)
  : result (World * list Event) :=
  cl ← deref w c;
  match chan_recv (send cl) with
  | RecvVal message ch' =>
      let w1 := set_heap (<[c := set_send ch' cl]> (heap w)) w in
      if write_ok then Ok (w1, [EvWrite c message true])
      else let '(w2, ev) := writePump_exit c w1 in
           Ok (w2, EvWrite c message false :: ev)
  | RecvDone => Ok (writePump_exit c w)
  | RecvBlock => Ok (w, [])
  end.

(** What [upgrader.Upgrade(w, r, nil)] did: it returned a connection, or
    it returned an error.  The upgrader has no [Error] function set, so
    when the handshake is refused it answers the request itself, with
    [http.Error], before it returns; [reply] is the status and the body it
    wrote, [None] when it failed on a connection it had taken over already
    and wrote nothing. *)
Inductive UpgradeResult : Type :=
| Upgraded
| UpgradeError (reply : option (nat * string)).

(** The response written inside [upgrader.Upgrade] when it fails. *)
Definition upgrade_reply (reply : option (nat * string)) : list Event :=
  match reply with
  | Some (status, body) => [EvHttpError status body]
  | None => []
  end.

(** [func (ws *WSHandler) HandleWebSocket]: [channel] is
    [r.URL.Query().Get("channel")], [upgrade] what [upgrader.Upgrade]
    did. *)
Definition HandleWebSocket (channel : string) (upgrade : UpgradeResult) (w : World)
  : result (World * list Event) :=
  if decide (channel = "")
  then Ok (w, [EvHttpError 400 "channel parameter required"])
  else
    match upgrade with
    | UpgradeError reply =>
        Ok (w, upgrade_reply reply ++ [EvLog "WebSocket upgrade error"])
    | Upgraded =>
        let c := next w in
        let client := mkClient (mkConn false) (make_chan 256) channel in
        let w1 := mkWorld (channels w) (<[c := client]> (heap w)) (S (next w))
                          (readers w) (writers w) in
        '(w2, ev) ← Register c w1;
        Ok (set_readers ({[c]} ∪ readers w2) (set_writers ({[c]} ∪ writers w2) w2), ev)
    end.

(** ** The transition system *)

Inductive Input : Type :=
| InConnect (channel : string) (upgrade : UpgradeResult)
| InRead (c : ptr) (rd : ReadResult) (now : string)
| InWrite (c : ptr) (write_ok : bool).

(** A pump takes a turn only while its goroutine runs.  The inbound loop
    can get a message or an error from [ReadMessage] at any time, also
    when the outbound loop has closed the transport already: frames that
    arrived before are still handed out.  A write on a transport that was
    closed does not succeed; the outbound loop waits while its channel is
    empty and open. *)
Definition enabled (w : World) (i : Input) : bool :=
  match i with
  | InConnect _ _ => true
  | InRead c _ _ => bool_decide (c ∈ readers w)
  | InWrite c write_ok =>
      bool_decide (c ∈ writers w) &&
      match heap w !! c with
      | Some cl =>
          match chan_recv (send cl) with
          | RecvVal _ _ => negb write_ok || negb (conn_closed (conn cl))
          | RecvDone => true
          | RecvBlock => false
          end
      | None => false
      end
  end.

Definition step (w : World) (i : Input) : result (World * list Event) :=
  match i with
  | InConnect channel upgrade => HandleWebSocket channel upgrade w
  | InRead c rd now => readPump_iter c rd now w
  | InWrite c write_ok => writePump_iter c write_ok w
  end.

(** The worlds the server reaches from [NewWSHandler()], with the events
    so far. *)
Inductive reaches : World → list Event → Prop :=
| reaches_init : reaches NewHub []
| reaches_step w tr i w' ev :
    reaches w tr → enabled w i = true → step w i = Ok (w', ev) →
    reaches w' (tr ++ ev).

(** Running a list of inputs; a turn that is not enabled is skipped. *)
Fixpoint run (inputs : list Input) (w : World) : result (World * list Event) :=
  match inputs with
  | [] => Ok (w, [])
  | i :: inputs' =>
      if enabled w i
      then '(w1, ev1) ← step w i;
           '(w2, ev2) ← run inputs' w1;
           Ok (w2, ev1 ++ ev2)
      else run inputs' w
  end.

End Handlers.

(** ** A codec for flat JSON objects

  An instance of the two codec functions on a fragment of JSON: one
  object of string members, written without white space, the strings
  without quotes, backslashes or escapes. *)
Module SampleCodec.

Definition bytes (s : string) : payload := String.list_byte_of_string s.

Definition member (k v : string) : payload :=
  [Byte.x22] ++ bytes k ++ [Byte.x22; Byte.x3a; Byte.x22] ++ bytes v ++ [Byte.x22].

Definition Marshal (msg : WSMessage) : option payload :=
  Some ([Byte.x7b] ++ member "type" (Type_ msg) ++ [Byte.x2c]
        ++ member "channel_id" (ChannelID msg) ++ [Byte.x2c]
        ++ member "author" (Author msg) ++ [Byte.x2c]
        ++ member "content" (Content msg) ++ [Byte.x2c]
        ++ member "created_at" (CreatedAt msg) ++ [Byte.x7d]).

(** The characters up to the closing quote, and what follows it. *)
Fixpoint read_string (bs : payload) : option (payload * payload) :=
  match bs with
  | [] => None
  | Byte.x22 :: rest => Some ([], rest)
  | Byte.x5c :: _ => None
  | b :: rest => '(s, rest') ← read_string rest; Some (b :: s, rest')
  end.

Definition set_member (k v : string) (msg : WSMessage) : WSMessage :=
  if decide (k = "type") then mkWSMessage v (ChannelID msg) (Author msg) (Content msg) (CreatedAt msg)
  else if decide (k = "channel_id") then mkWSMessage (Type_ msg) v (Author msg) (Content msg) (CreatedAt msg)
  else if decide (k = "author") then mkWSMessage (Type_ msg) (ChannelID msg) v (Content msg) (CreatedAt msg)
  else if decide (k = "content") then mkWSMessage (Type_ msg) (ChannelID msg) (Author msg) v (CreatedAt msg)
  else if decide (k = "created_at") then mkWSMessage (Type_ msg) (ChannelID msg) (Author msg) (Content msg) v
  else msg.

Fixpoint members (fuel : nat) (bs : payload) (msg : WSMessage) : option WSMessage :=
  match fuel, bs with
  | S fuel', Byte.x22 :: rest =>
      '(k, r1) ← read_string rest;
      match r1 with
      | Byte.x3a :: Byte.x22 :: r2 =>
          '(v, r3) ← read_string r2;
          let msg' := set_member (String.string_of_list_byte k)
                                 (String.string_of_list_byte v) msg in
          match r3 with
          | [Byte.x7d] => Some msg'
          | Byte.x2c :: r4 => members fuel' r4 msg'
          | _ => None
          end
      | _ => None
      end
  | _, _ => None
  end.

Definition Unmarshal (raw : payload) : option WSMessage :=
  match raw with
  | [Byte.x7b; Byte.x7d] => Some (mkWSMessage "" "" "" "" "")
  | Byte.x7b :: rest => members (length rest) rest (mkWSMessage "" "" "" "" "")
  | _ => None
  end.

(** The object with members [author] and [content]. *)
Definition hello (author content : string) : payload :=
  [Byte.x7b] ++ member "author" author ++ [Byte.x2c]
  ++ member "content" content ++ [Byte.x7d].

End SampleCodec.

(** ** Runs of the server

    Worlds reached by running inputs from [NewWSHandler()] with the codec
    above; client [0] is the first to connect, client [1] the second. *)
Module Scenario.

Definition run_from_start (inputs : list Input) : result (World * list Event) :=
  run SampleCodec.Unmarshal SampleCodec.Marshal inputs NewHub.

Definition world_of (inputs : list Input) : World :=
  match run_from_start inputs with
  | Ok (w, _) => w
  | Panic _ => NewHub
  end.

Definition trace_of (inputs : list Input) : list Event :=
  match run_from_start inputs with
  | Ok (_, tr) => tr
  | Panic _ => []
  end.

Definition noon : string := "2024-05-01T12:00:00Z".

(** What alice sends, and what the hub makes of it at [noon]. *)
Definition hi : payload := SampleCodec.hello "alice" "hi".

Definition hi_msg : WSMessage := mkWSMessage "" "" "alice" "hi" "".

Definition hi_out : payload :=
  default [] (SampleCodec.Marshal (mkWSMessage "message" "general" "alice" "hi" noon)).

(** A payload that names another channel, another type and a time that is
    no time. *)
Definition spoof_msg : WSMessage :=
  mkWSMessage "system" "random" "mallory" "psst" "not-a-date".

Definition spoof : payload := default [] (SampleCodec.Marshal spoof_msg).

(** Not JSON. *)
Definition garbage : payload := SampleCodec.bytes "hello?".

(** Two clients in channel general. *)
Definition two_joined : list Input :=
  [InConnect "general" Upgraded; InConnect "general" Upgraded].

(** Client [0] alone in general. *)
Definition one_joined : list Input := [InConnect "general" Upgraded].

(** Client [0] published 256 times; client [1] wrote one payload out:
    the mailbox of [0] is full, that of [1] has one free slot. *)
Definition one_full : list Input :=
  two_joined ++ replicate 256 (InRead 0 (ReadMsg hi) noon) ++ [InWrite 1 true].

(** Client [0] published once, and writing the echo back to it failed. *)
Definition write_failed : list Input :=
  [InConnect "general" Upgraded; InRead 0 (ReadMsg hi) noon; InWrite 0 false].

(** What the hub makes of the spoofed payload in general at [noon]. *)
Definition spoof_out : payload :=
  default [] (SampleCodec.Marshal (mkWSMessage "message" "general" "mallory" "psst" "not-a-date")).

(** Client [0] published alice's message and then the spoofed one; no
    outbound loop has taken a turn yet. *)
Definition two_waiting : list Input :=
  two_joined ++ [InRead 0 (ReadMsg hi) noon; InRead 0 (ReadMsg spoof) noon].

(** Client [0] published twice and its outbound loop took one turn. *)
Definition two_published : list Input :=
  two_joined ++ [InRead 0 (ReadMsg hi) noon; InRead 0 (ReadMsg spoof) noon; InWrite 1 true].

(** The reply of the upgrader to a request that is no handshake. *)
Definition bad_handshake : UpgradeResult := UpgradeError (Some (400, "Bad Request")).

End Scenario.

(** ** Notions the properties are stated with *)

(** The members of channel [T]: the keys of [h.channels[T]]. *)
Definition members_of (w : World) (T : string) : gset ptr :=
  match channels w !! T with
  | Some clients => dom clients
  | None => ∅
  end.

(** The mailbox of a client has a free slot. *)
Definition room (cl : Client) : bool :=
  (length (buf (send cl)) <? cap (send cl))%nat.

(** A client after [message] was offered to its mailbox. *)
Definition offer (message : payload) (cl : Client) : Client :=
  if room cl
  then set_send (mkChan (buf (send cl) ++ [message]) (cap (send cl)) (closed (send cl))) cl
  else cl.

(** The event of offering [message] to the client at [c]. *)
Definition offer_event (hp : gmap ptr Client) (message : payload) (c : ptr) : Event :=
  match hp !! c with
  | Some cl => if room cl then EvSend c message else EvSkip c message
  | None => EvSkip c message
  end.

(** The payloads the mailbox of [c] accepted, and those its outbound loop
    took out and handed to [WriteMessage], in the order of the trace. *)
Fixpoint accepted (c : ptr) (tr : list Event) : list payload :=
  match tr with
  | [] => []
  | EvSend c' m :: tr' => if decide (c' = c) then m :: accepted c tr' else accepted c tr'
  | _ :: tr' => accepted c tr'
  end.

Fixpoint dequeued (c : ptr) (tr : list Event) : list payload :=
  match tr with
  | [] => []
  | EvWrite c' m _ :: tr' => if decide (c' = c) then m :: dequeued c tr' else dequeued c tr'
  | _ :: tr' => dequeued c tr'
  end.

(** The payloads waiting in the mailbox of [c]. *)
Definition pending (w : World) (c : ptr) : list payload :=
  match heap w !! c with
  | Some cl => buf (send cl)
  | None => []
  end.

(** [Close] was called on the transport of [c]. *)
Definition transport_closed (w : World) (c : ptr) : bool :=
  match heap w !! c with
  | Some cl => conn_closed (conn cl)
  | None => true
  end.

(** The number of times [close(c.send)] and [delete(h.channels, T)] occur
    in a trace. *)
Fixpoint closes_of (c : ptr) (tr : list Event) : nat :=
  match tr with
  | [] => 0
  | EvChanClose c' :: tr' => if decide (c' = c) then S (closes_of c tr') else closes_of c tr'
  | _ :: tr' => closes_of c tr'
  end.


(** The members of a channel in the order [Broadcast] ranges over them. *)
Definition range_order (w : World) (T : string) : list ptr :=
  match channels w !! T with
  | Some clients => (map_to_list clients).*1
  | None => []
  end.

(** The channel map [Unregister] leaves when [c] was a member. *)
Definition channels_without (c : ptr) (T : string) (clients : gmap ptr bool)
    (chs : gmap string (gmap ptr bool)) : gmap string (gmap ptr bool) :=
  if decide (size (delete c clients) = 0) then delete T chs
  else <[T := delete c clients]> chs.

Definition close_send (cl : Client) : Client :=
  set_send (mkChan (buf (send cl)) (cap (send cl)) true) cl.

(** Two client records that differ at most in the content of the mailbox. *)
Definition same_shape (cl cl' : Client) : Prop :=
  conn cl' = conn cl ∧ channelID cl' = channelID cl ∧
  cap (send cl') = cap (send cl) ∧ closed (send cl') = closed (send cl) ∧
  length (buf (send cl')) ≤ cap (send cl').

Definition heap_same_shape (hp hp' : gmap ptr Client) : Prop :=
  ∀ c, match hp !! c, hp' !! c with
       | Some cl, Some cl' => same_shape cl cl'
       | None, None => True
       | _, _ => False
       end.

(** The phases of a connection, read off the goroutines and the transport:
    [Active] while both pumps run on an open transport, [Closed] once both
    pumps have returned, [Draining] in between. *)
Inductive Phase : Type := Connecting | Active | Draining | Closed.

Definition phase (w : World) (c : ptr) : Phase :=
  match heap w !! c with
  | None => Connecting
  | Some cl =>
      if bool_decide (c ∈ readers w) && bool_decide (c ∈ writers w)
         && negb (conn_closed (conn cl))
      then Active
      else if bool_decide (c ∈ readers w) || bool_decide (c ∈ writers w)
      then Draining
      else Closed
  end.

(** The invariant of the reachable worlds. *)
Record inv (w : World) : Prop := mkInv {
  inv_nonempty : ∀ T clients, channels w !! T = Some clients → clients ≠ ∅;
  inv_member : ∀ T clients c,
    channels w !! T = Some clients → is_Some (clients !! c) →
    ∃ cl, heap w !! c = Some cl ∧ channelID cl = T ∧ c ∈ readers w;
  inv_reader : ∀ c, c ∈ readers w →
    ∃ cl clients, heap w !! c = Some cl ∧
      channels w !! channelID cl = Some clients ∧ is_Some (clients !! c);
  inv_chan : ∀ c cl, heap w !! c = Some cl →
    cap (send cl) = 256 ∧ length (buf (send cl)) ≤ 256 ∧
    (closed (send cl) = true ↔ c ∉ readers w);
  inv_conn : ∀ c cl, heap w !! c = Some cl →
    (conn_closed (conn cl) = true ↔ c ∉ readers w ∨ c ∉ writers w);
  inv_next : ∀ c, is_Some (heap w !! c) → c < next w;
  inv_writer : ∀ c, c ∈ writers w → is_Some (heap w !! c)
}.

(** ** The REST API (handlers/api.go)

    The state of [API] under its lock, the two routed handlers and what
    they call.  A handler takes the state, the request and the reading of
    the clock, and returns the state it leaves with its response; Go's
    [int] is the 64-bit integer with its wrap-around. *)
Module API.

Local Open Scope Z_scope.

(** Go's [int] on a 64-bit platform. *)
Definition maxInt : Z := 2 ^ 63 - 1.
Definition minInt : Z := - 2 ^ 63.

Definition wrap (z : Z) : Z := (z + 2 ^ 63) mod 2 ^ 64 - 2 ^ 63.

(** [strconv.Itoa]: the decimal digits, after a minus sign when negative. *)
Definition Itoa (n : Z) : string :=
  DecimalString.NilZero.string_of_int (Z.to_int n).

(** [strconv.Atoi]: an optional sign, then one or more decimal digits and
    nothing else; a value outside [int] is an error. *)
Definition in_int (z : Z) : option Z :=
  if bool_decide (minInt ≤ z ≤ maxInt) then Some z else None.

Definition plus_sign : Ascii.ascii := Ascii.ascii_of_byte Byte.x2b.
Definition minus_sign : Ascii.ascii := Ascii.ascii_of_byte Byte.x2d.
Definition slash : Ascii.ascii := Ascii.ascii_of_byte Byte.x2f.

Definition Atoi (s : string) : option Z :=
  match s with
  | String a s' =>
      if Ascii.eqb a plus_sign
      then d ← DecimalString.NilZero.uint_of_string s'; in_int (Z.of_uint d)
      else if Ascii.eqb a minus_sign
      then d ← DecimalString.NilZero.uint_of_string s'; in_int (- Z.of_uint d)
      else d ← DecimalString.NilZero.uint_of_string s; in_int (Z.of_uint d)
  | EmptyString => None
  end.

(** [strings.TrimPrefix]: [s[len(prefix):]] when [s] has the prefix. *)
Definition TrimPrefix (s prefix : string) : string :=
  if String.prefix prefix s
  then String.substring (String.length prefix)
                        (String.length s - String.length prefix) s
  else s.

(** [strings.Split] with a separator of one character. *)
Fixpoint Split (s : string) (sep : Ascii.ascii) : list string :=
  match s with
  | EmptyString => [EmptyString]
  | String a s' =>
      if Ascii.eqb a sep then EmptyString :: Split s' sep
      else match Split s' sep with
           | part :: parts => String a part :: parts
           | [] => [String a EmptyString]
           end
  end.

(** The string holds the character. *)
Fixpoint has_char (c : Ascii.ascii) (s : string) : bool :=
  match s with
  | EmptyString => false
  | String a s' => Ascii.eqb a c || has_char c s'
  end.

(** [s[low:high]]; Go bounds [high] by the capacity, and the one slice
    expression of the handlers has [high] at most the length. *)
Definition slice {A : Type} (s : list A) (low high : Z) : result (list A) :=
  if bool_decide (0 ≤ low ∧ low ≤ high ∧ high ≤ Z.of_nat (length s))
  then Ok (take (Z.to_nat (high - low)) (drop (Z.to_nat low) s))
  else Panic "slice bounds out of range".

(** [time.Time], an instant. *)
Abbreviation Time := Z.

Record Channel : Type := mkChannel {
  Channel_ID : string;
  Channel_Name : string;
  Channel_CreatedAt : Time
}.

Record Message : Type := mkMessage {
  Message_ID : string;
  Message_ChannelID : string;
  Message_Content : string;
  Message_Author : string;
  Message_CreatedAt : Time
}.

Record CreateChannelRequest : Type := mkCreateChannelRequest { Req_Name : string }.

Record CreateMessageRequest : Type := mkCreateMessageRequest {
  Req_Content : string;
  Req_Author : string
}.

Record PaginatedMessages : Type := mkPaginatedMessages {
  Messages : list Message;
  Page : Z;
  Limit : Z;
  Total : Z
}.

(** [type API struct], without its lock.  The channel map holds the
    channels themselves: a channel is never written after it is stored. *)
Record API : Type := mkAPI {
  channels : gmap string Channel;
  messages : gmap string (list Message);
  channelSeq : Z;
  messageSeq : Z
}.

(** [NewAPI()] *)
Definition NewAPI : API := mkAPI ∅ ∅ 0 0.

(** What a handler reads of [*http.Request]. *)
Record Request : Type := mkRequest {
  Method : string;
  URL_Path : string;
  URL_Query : gmap string (list string);
  Body : payload
}.

(** [r.URL.Query().Get(key)] *)
Definition Query_Get (r : Request) (key : string) : string :=
  match URL_Query r !! key with
  | Some (v :: _) => v
  | _ => ""
  end.

(** What a handler writes: the status with the value [respondJSON]
    encodes, or with the text of [http.Error]. *)
Inductive Data : Type :=
| JSONChannels (cs : list Channel)
| JSONChannel (c : Channel)
| JSONPage (p : PaginatedMessages)
| JSONMessage (m : Message)
| Text (line : string).

Record Response : Type := mkResponse { Status : Z; Written : Data }.

Definition StatusOK : Z := 200.
Definition StatusCreated : Z := 201.
Definition StatusBadRequest : Z := 400.
Definition StatusNotFound : Z := 404.
Definition StatusMethodNotAllowed : Z := 405.

(** [http.Error(w, line, code)] *)
Definition http_Error (line : string) (code : Z) : Response := mkResponse code (Text line).

(** [respondJSON(w, status, data)] *)
Definition respondJSON (status : Z) (data : Data) : Response := mkResponse status data.

(** [func (a *API) listChannels]: the range over the map, in the order it
    yields the channels. *)
Definition listChannels (a : API) : API * Response :=
  (a, respondJSON StatusOK (JSONChannels (map_to_list (channels a)).*2)).

(** [func (a *API) getChannel] *)
Definition getChannel (a : API) (channelID : string) : API * Response :=
  match channels a !! channelID with
  | None => (a, http_Error "Channel not found" StatusNotFound)
  | Some channel => (a, respondJSON StatusOK (JSONChannel channel))
  end.

(** Lines 186-193: the page asked for, 1 unless the parameter is a
    positive number. *)
Definition page_of (p : string) : Z :=
  if decide (p = "") then 1
  else match Atoi p with
       | Some parsed => if bool_decide (0 < parsed) then parsed else 1
       | None => 1
       end.

(** Lines 187-199: the page size asked for, 20 unless the parameter is a
    number from 1 to 100. *)
Definition limit_of (l : string) : Z :=
  if decide (l = "") then 20
  else match Atoi l with
       | Some parsed => if bool_decide (0 < parsed ∧ parsed ≤ 100) then parsed else 20
       | None => 20
       end.

(** [func (a *API) getMessages] *)
Definition getMessages (a : API) (r : Request) (channelID : string)
  : result (API * Response) :=
  match channels a !! channelID with
  | None => Ok (a, http_Error "Channel not found" StatusNotFound)
  | Some _ =>
      let page := page_of (Query_Get r "page") in
      let limit := limit_of (Query_Get r "limit") in
      let msgs := default [] (messages a !! channelID) in
      let total := Z.of_nat (length msgs) in
      let start := wrap (wrap (page - 1) * limit) in
      let end_ := wrap (start + limit) in
      if bool_decide (total ≤ start)
      then Ok (a, respondJSON StatusOK
                    (JSONPage (mkPaginatedMessages [] page limit total)))
      else
        let end_ := if bool_decide (total < end_) then total else end_ in
        page_messages ← slice msgs start end_;
        Ok (a, respondJSON StatusOK
                 (JSONPage (mkPaginatedMessages page_messages page limit total)))
  end.

Section Handlers.

(** [json.NewDecoder(r.Body).Decode(&req)] for the two request types;
    [None] is a non-nil error. *)
Context (decode_channel : payload → option CreateChannelRequest).
Context (decode_message : payload → option CreateMessageRequest).

(** [func (a *API) createChannel] *)
Definition createChannel (a : API) (r : Request) (now : Time) : API * Response :=
  match decode_channel (Body r) with
  | None => (a, http_Error "Invalid request body" StatusBadRequest)
  | Some req =>
      if decide (Req_Name req = "")
      then (a, http_Error "Channel name is required" StatusBadRequest)
      else
        let seq := wrap (channelSeq a + 1) in
        let channel := mkChannel (Itoa seq) (Req_Name req) now in
        (mkAPI (<[Channel_ID channel := channel]> (channels a))
               (<[Channel_ID channel := []]> (messages a))
               seq (messageSeq a),
         respondJSON StatusCreated (JSONChannel channel))
  end.

(** [func (a *API) sendMessage] *)
Definition sendMessage (a : API) (r : Request) (channelID : string) (now : Time)
  : API * Response :=
  match decode_message (Body r) with
  | None => (a, http_Error "Invalid request body" StatusBadRequest)
  | Some req =>
      if decide (Req_Content req = "")
      then (a, http_Error "Message content is required" StatusBadRequest)
      else if decide (Req_Author req = "")
      then (a, http_Error "Author is required" StatusBadRequest)
      else
        match channels a !! channelID with
        | None => (a, http_Error "Channel not found" StatusNotFound)
        | Some _ =>
            let seq := wrap (messageSeq a + 1) in
            let message := mkMessage (Itoa seq) channelID (Req_Content req)
                                     (Req_Author req) now in
            (mkAPI (channels a)
                   (<[channelID := default [] (messages a !! channelID) ++ [message]]>
                      (messages a))
                   (channelSeq a) seq,
             respondJSON StatusCreated (JSONMessage message))
        end
  end.

(** [func (a *API) handleChannels] *)
Definition handleChannels (a : API) (r : Request) (now : Time)
  : result (API * Response) :=
  if decide (Method r = "GET") then Ok (listChannels a)
  else if decide (Method r = "POST") then Ok (createChannel a r now)
  else Ok (a, http_Error "Method not allowed" StatusMethodNotAllowed).

(** [func (a *API) handleChannelByID] *)
Definition handleChannelByID (a : API) (r : Request) (now : Time)
  : result (API * Response) :=
  let path := TrimPrefix (URL_Path r) "/api/channels/" in
  let parts := Split path slash in
  match parts with
  | [] => Ok (a, http_Error "Channel ID required" StatusBadRequest)
  | channelID :: rest =>
      if decide (channelID = "")
      then Ok (a, http_Error "Channel ID required" StatusBadRequest)
      else
        match rest with
        | [] =>
            if decide (Method r = "GET") then Ok (getChannel a channelID)
            else Ok (a, http_Error "Method not allowed" StatusMethodNotAllowed)
        | [second] =>
            if decide (second = "messages")
            then
              if decide (Method r = "GET") then getMessages a r channelID
              else if decide (Method r = "POST") then Ok (sendMessage a r channelID now)
              else Ok (a, http_Error "Method not allowed" StatusMethodNotAllowed)
            else Ok (a, http_Error "Not found" StatusNotFound)
        | _ => Ok (a, http_Error "Not found" StatusNotFound)
        end
  end.

(** A call of one of the two handlers [RegisterRoutes] installs. *)
Inductive Call : Type :=
| ToChannels (r : Request) (now : Time)
| ToChannelByID (r : Request) (now : Time).

Definition serve (a : API) (c : Call) : result (API * Response) :=
  match c with
  | ToChannels r now => handleChannels a r now
  | ToChannelByID r now => handleChannelByID a r now
  end.

(** The calls one after the other, with the responses in order. *)
Fixpoint serve_all (a : API) (cs : list Call) : result (API * list Response) :=
  match cs with
  | [] => Ok (a, [])
  | c :: cs' =>
      '(a1, resp) ← serve a c;
      '(a2, resps) ← serve_all a1 cs';
      Ok (a2, resp :: resps)
  end.

End Handlers.

(** The request of a call. *)
Definition request_of (c : Call) : Request :=
  match c with
  | ToChannels r _ => r
  | ToChannelByID r _ => r
  end.

(** The messages of a page that was answered. *)
Definition messages_of (res : result (API * Response)) : list Message :=
  match res with
  | Ok (_, mkResponse _ (JSONPage p)) => Messages p
  | _ => []
  end.

(** The request for page [page] with pages of [limit] messages. *)
Definition page_request (path : string) (page limit : Z) : Request :=
  mkRequest "GET" path
            (<["page" := [Itoa page]]> (<["limit" := [Itoa limit]]> ∅)) [].

(** What the handlers keep true of the state. *)
Record api_inv (a : API) : Prop := mkApiInv {
  inv_seq : 0 ≤ channelSeq a ≤ maxInt ∧ 0 ≤ messageSeq a ≤ maxInt;
  inv_lists : dom (messages a) = dom (channels a);
  inv_channel : ∀ id ch, channels a !! id = Some ch →
    Channel_ID ch = id ∧ ∃ k, 1 ≤ k ≤ channelSeq a ∧ id = Itoa k;
  inv_message : ∀ id msgs i m, messages a !! id = Some msgs → msgs !! i = Some m →
    Message_ChannelID m = id ∧ ∃ k, 1 ≤ k ≤ messageSeq a ∧ Message_ID m = Itoa k;
  inv_message_ids : ∀ id id' msgs msgs' (i i' : nat) m m',
    messages a !! id = Some msgs → msgs !! i = Some m →
    messages a !! id' = Some msgs' → msgs' !! i' = Some m' →
    Message_ID m = Message_ID m' → id = id' ∧ i = i'
}.

(** Along the list of a channel the numbers of the message IDs grow. *)
Definition ids_increasing (a : API) : Prop :=
  ∀ id msgs (i j : nat) mi mj ki kj,
    messages a !! id = Some msgs → msgs !! i = Some mi → msgs !! j = Some mj →
    (i < j)%nat → Message_ID mi = Itoa ki → Message_ID mj = Itoa kj → ki < kj.

End API.

(** ** Decoders for flat JSON objects

    The two decoders of the API on the fragment of JSON of [SampleCodec],
    the keys spelled as in the struct tags; a member that occurs twice
    counts with its last value, one that is missing is the empty string. *)
Module SampleAPI.

Fixpoint members (fuel : nat) (bs : payload) (acc : list (string * string))
  : option (list (string * string)) :=
  match fuel, bs with
  | S fuel', Byte.x22 :: rest =>
      '(k, r1) ← SampleCodec.read_string rest;
      match r1 with
      | Byte.x3a :: Byte.x22 :: r2 =>
          '(v, r3) ← SampleCodec.read_string r2;
          let acc' := acc ++ [(String.string_of_list_byte k, String.string_of_list_byte v)] in
          match r3 with
          | [Byte.x7d] => Some acc'
          | Byte.x2c :: r4 => members fuel' r4 acc'
          | _ => None
          end
      | _ => None
      end
  | _, _ => None
  end.

Definition parse (raw : payload) : option (list (string * string)) :=
  match raw with
  | [Byte.x7b; Byte.x7d] => Some []
  | Byte.x7b :: rest => members (length rest) rest []
  | _ => None
  end.

Definition member_of (k : string) (kvs : list (string * string)) : string :=
  foldl (λ acc kv, if decide (kv.1 = k) then kv.2 else acc) "" kvs.

Definition decode_channel (raw : payload) : option API.CreateChannelRequest :=
  kvs ← parse raw; Some (API.mkCreateChannelRequest (member_of "name" kvs)).

Definition decode_message (raw : payload) : option API.CreateMessageRequest :=
  kvs ← parse raw;
  Some (API.mkCreateMessageRequest (member_of "content" kvs) (member_of "author" kvs)).

(** The object with the given members. *)
Fixpoint object_tail (kvs : list (string * string)) : payload :=
  match kvs with
  | [] => [Byte.x7d]
  | [(k, v)] => SampleCodec.member k v ++ [Byte.x7d]
  | (k, v) :: kvs' => SampleCodec.member k v ++ [Byte.x2c] ++ object_tail kvs'
  end.

Definition object (kvs : list (string * string)) : payload :=
  Byte.x7b :: object_tail kvs.

Definition get (path : string) (query : list (string * string)) : API.Request :=
  API.mkRequest "GET" path (list_to_map ((λ kv, (kv.1, [kv.2])) <$> query)) [].

Definition post (path : string) (kvs : list (string * string)) : API.Request :=
  API.mkRequest "POST" path ∅ (object kvs).

Definition serve_all := API.serve_all decode_channel decode_message.

Definition state_of (cs : list API.Call) : API.API :=
  match serve_all API.NewAPI cs with
  | Ok (a, _) => a
  | Panic _ => API.NewAPI
  end.

End SampleAPI.

(** ** More runs

    Worlds and states the further properties are tried on. *)
Module Runs2.

Import Scenario.

(** The record of the client at [c]. *)
Definition client_at (w : World) (c : ptr) : Client :=
  default (mkClient (mkConn true) (make_chan 0) "") (heap w !! c).

Definition world_after (res : result (World * list Event)) : World :=
  match res with
  | Ok (w, _) => w
  | Panic _ => NewHub
  end.

Definition events_of (res : result (World * list Event)) : list Event :=
  match res with
  | Ok (_, ev) => ev
  | Panic _ => []
  end.

(** Client [0] in general, client [1] in random. *)
Definition two_channels : list Input :=
  [InConnect "general" Upgraded; InConnect "random" Upgraded].

(** Client [0] joined general and its read failed. *)
Definition reader_gone : list Input :=
  [InConnect "general" Upgraded; InRead 0 (ReadErr false) noon].

(** Client [0] handles the payload that names the channel random. *)
Definition spoof_turn : result (World * list Event) :=
  readPump_iter SampleCodec.Unmarshal SampleCodec.Marshal 0 (ReadMsg spoof) noon
                (world_of two_channels).

(** A channel general with three messages. *)
Definition create_general : API.Call :=
  API.ToChannels (SampleAPI.post "/api/channels" [("name", "general")]) 100.

Definition say (content author : string) (now : Z) : API.Call :=
  API.ToChannelByID
    (SampleAPI.post "/api/channels/1/messages" [("content", content); ("author", author)])
    now.

Definition chat : list API.Call :=
  [create_general; say "hi" "alice" 101; say "yo" "bob" 102; say "hey" "carol" 103].

Definition general : API.Channel := API.mkChannel "1" "general" 100.

Definition chat_messages : list API.Message :=
  [API.mkMessage "1" "1" "hi" "alice" 101; API.mkMessage "2" "1" "yo" "bob" 102;
   API.mkMessage "3" "1" "hey" "carol" 103].

Definition responses_of (cs : list API.Call) : list API.Response :=
  match SampleAPI.serve_all API.NewAPI cs with
  | Ok (_, resps) => resps
  | Panic _ => []
  end.

Definition messages_path : string := "/api/channels/1/messages".

End Runs2.

(** * Properties *)

Set Warnings "-clear-no-such-hyp".

(** ** Channels *)

Lemma set_send_same (cl : Client) : set_send (send cl) cl = cl.
Proof. by destruct cl. Qed.

Lemma chan_trysend_offer (cl : Client) (m : payload) :
  closed (send cl) = false →
  chan_trysend (send cl) m = Ok (send (offer m cl), room cl) ∧
  set_send (send (offer m cl)) cl = offer m cl.
Proof.
  intros Hopen. unfold chan_trysend, offer, room. rewrite Hopen.
  destruct (length (buf (send cl)) <? cap (send cl))%nat; simpl; [done|].
  by rewrite set_send_same.
Qed.

Lemma offer_fields (m : payload) (cl : Client) :
  conn (offer m cl) = conn cl ∧ channelID (offer m cl) = channelID cl ∧
  cap (send (offer m cl)) = cap (send cl) ∧
  closed (send (offer m cl)) = closed (send cl) ∧
  buf (send (offer m cl)) = (if room cl then buf (send cl) ++ [m] else buf (send cl)).
Proof. unfold offer. by destruct (room cl). Qed.

Lemma offer_length (m : payload) (cl : Client) :
  length (buf (send cl)) ≤ cap (send cl) →
  length (buf (send (offer m cl))) ≤ cap (send cl).
Proof.
  intros Hle. unfold offer, room.
  destruct (length (buf (send cl)) <? cap (send cl))%nat eqn:Hroom; simpl; [|done].
  apply Nat.ltb_lt in Hroom. rewrite length_app. simpl. lia.
Qed.

(** ** The loop of [Broadcast] *)

Lemma Broadcast_range_spec (m : payload) (cs : list ptr) :
  ∀ w, NoDup cs →
    (∀ c, c ∈ cs → ∃ cl, heap w !! c = Some cl ∧ closed (send cl) = false) →
    ∃ hp, Broadcast_range cs m w = Ok (set_heap hp w, offer_event (heap w) m <$> cs) ∧
      ∀ c, hp !! c = if decide (c ∈ cs) then offer m <$> heap w !! c else heap w !! c.
Proof.
  induction cs as [|c cs IH]; intros w Hnd Hopen.
  - exists (heap w). split; [by destruct w|]. intros c. by rewrite decide_False; [|set_solver].
  - apply NoDup_cons in Hnd as [Hc Hnd].
    destruct (Hopen c) as (cl & Hcl & Hcl_open); [set_solver|].
    set (w1 := set_heap (<[c:=offer m cl]> (heap w)) w).
    destruct (IH w1 Hnd) as (hp & Hrun & Hhp).
    { intros c' Hc'. destruct (Hopen c') as (cl' & Hcl' & ?); [set_solver|].
      exists cl'. split; [|done]. simpl. rewrite lookup_insert_ne; [done|].
      intros ->. done. }
    assert (Hev : offer_event (heap w1) m <$> cs = offer_event (heap w) m <$> cs).
    { apply list_fmap_ext. intros i c' Hi. unfold offer_event. simpl.
      rewrite lookup_insert_ne; [done|]. intros ->.
      apply Hc. by eapply list_elem_of_lookup_2. }
    exists hp. split.
    + simpl. unfold deref. rewrite Hcl. simpl.
      destruct (chan_trysend_offer cl m Hcl_open) as [-> Hset]. simpl.
      rewrite Hset. fold w1. rewrite Hrun, Hev. simpl.
      unfold offer_event at 2. by rewrite Hcl.
    + intros c'. rewrite Hhp. simpl.
      destruct (decide (c' = c)) as [->|Hne].
      * rewrite lookup_insert_eq. rewrite (decide_False (P := c ∈ cs)) by done.
        rewrite decide_True by set_solver. by rewrite Hcl.
      * rewrite lookup_insert_ne; [|done].
        destruct (decide (c' ∈ cs)).
        -- by rewrite decide_True by set_solver.
        -- by rewrite decide_False by set_solver.
Qed.

(** X8. The order in which the range yields the members does not matter
    for the world the loop leaves: whatever the order, every member is
    offered the payload once and the same world comes out. *)
Lemma Broadcast_range_order_irrelevant (m : payload) (cs cs' : list ptr) (w : World) :
  cs ≡ₚ cs' → NoDup cs →
  (∀ c, c ∈ cs → ∃ cl, heap w !! c = Some cl ∧ closed (send cl) = false) →
  ∃ w', Broadcast_range cs m w = Ok (w', offer_event (heap w) m <$> cs) ∧
        Broadcast_range cs' m w = Ok (w', offer_event (heap w) m <$> cs').
Proof.
  intros Hperm Hnd Hopen.
  destruct (Broadcast_range_spec m cs w Hnd Hopen) as (hp & Hrun & Hhp).
  destruct (Broadcast_range_spec m cs' w) as (hp' & Hrun' & Hhp').
  { by rewrite <- Hperm. }
  { intros c Hc. apply Hopen. by rewrite Hperm. }
  exists (set_heap hp w). split; [done|]. rewrite Hrun'. do 3 f_equal.
  apply map_eq. intros c. rewrite Hhp, Hhp'.
  destruct (decide (c ∈ cs)) as [Hin|Hnin].
  - rewrite decide_True; [done|]. by rewrite <- Hperm.
  - rewrite decide_False; [done|]. by rewrite <- Hperm.
Qed.

Lemma elem_of_range_order (clients : gmap ptr bool) (c : ptr) :
  c ∈ (map_to_list clients).*1 ↔ is_Some (clients !! c).
Proof.
  rewrite list_elem_of_fmap. split.
  - intros ([c' b] & -> & Hin). apply elem_of_map_to_list in Hin. by exists b.
  - intros [b Hb]. exists (c, b). split; [done|]. by apply elem_of_map_to_list.
Qed.

Lemma elem_of_range_order_members (w : World) (T : string) (c : ptr) :
  c ∈ range_order w T ↔ c ∈ members_of w T.
Proof.
  unfold range_order, members_of. destruct (channels w !! T) as [clients|].
  - by rewrite elem_of_range_order, elem_of_dom.
  - set_solver.
Qed.

Lemma inv_member_open (w : World) (T : string) (c : ptr) :
  inv w → c ∈ members_of w T →
  ∃ cl, heap w !! c = Some cl ∧ channelID cl = T ∧ c ∈ readers w ∧
        closed (send cl) = false.
Proof.
  intros Hinv. unfold members_of.
  destruct (channels w !! T) as [clients|] eqn:HT; [|set_solver].
  rewrite elem_of_dom. intros Hc.
  destruct (inv_member _ Hinv _ _ _ HT Hc) as (cl & Hcl & Hbound & Hrd).
  exists cl. repeat split; try done.
  destruct (inv_chan _ Hinv _ _ Hcl) as (_ & _ & Hclosed).
  destruct (closed (send cl)); [|done]. exfalso. by apply Hclosed.
Qed.

Lemma Broadcast_spec (w : World) (T : string) (m : payload) :
  inv w →
  ∃ hp, Broadcast T m w = Ok (set_heap hp w, offer_event (heap w) m <$> range_order w T) ∧
    ∀ c, hp !! c = if decide (c ∈ members_of w T)
                   then offer m <$> heap w !! c else heap w !! c.
Proof.
  intros Hinv. unfold Broadcast.
  pose proof (elem_of_range_order_members w T) as Hmem.
  pose proof (inv_member_open w T) as Hopen.
  unfold range_order in *. destruct (channels w !! T) as [clients|] eqn:HT.
  - destruct (Broadcast_range_spec m (map_to_list clients).*1 w) as (hp & Hrun & Hhp).
    + apply NoDup_fst_map_to_list.
    + intros c Hc. apply Hmem in Hc.
      destruct (Hopen c Hinv Hc) as (cl & ? & ? & ? & ?). by exists cl.
    + exists hp. split; [done|]. intros c. rewrite Hhp.
      destruct (decide (c ∈ (map_to_list clients).*1)) as [Hin|Hnin].
      * rewrite decide_True; [done|]. by apply Hmem.
      * rewrite decide_False; [done|]. intros ?. by apply Hnin, Hmem.
  - exists (heap w). split; [by destruct w|]. intros c.
    rewrite decide_False; [done|]. unfold members_of. rewrite HT. set_solver.
Qed.

(** ** [Register] and [Unregister] *)

Lemma Register_spec (w : World) (c : ptr) (cl : Client) :
  heap w !! c = Some cl →
  Register c w =
    Ok (set_channels
          (<[channelID cl := <[c := true]> (default ∅ (channels w !! channelID cl))]>
             (channels w)) w,
        [EvLog ("Client connected to channel " +:+ channelID cl)]).
Proof.
  intros Hcl. unfold Register, deref. rewrite Hcl. simpl. do 2 f_equal.
  f_equal. apply map_eq. intros T.
  destruct (decide (T = channelID cl)) as [->|Hne].
  - rewrite lookup_alter_eq, lookup_insert_eq.
    destruct (channels w !! channelID cl) eqn:HT; simpl.
    + by rewrite HT.
    + by rewrite lookup_insert_eq.
  - rewrite lookup_alter_ne, lookup_insert_ne by done.
    destruct (channels w !! channelID cl); [done|]. by rewrite lookup_insert_ne.
Qed.

Lemma Unregister_member (w : World) (c : ptr) (cl : Client) (clients : gmap ptr bool) :
  heap w !! c = Some cl →
  channels w !! channelID cl = Some clients →
  is_Some (clients !! c) →
  closed (send cl) = false →
  Unregister c w =
    Ok (set_heap (<[c := close_send cl]> (heap w))
          (set_channels (channels_without c (channelID cl) clients (channels w)) w),
        [EvChanClose c; EvLog ("Client disconnected from channel " +:+ channelID cl)]
        ++ (if decide (size (delete c clients) = 0)
            then [EvDeleteChannel (channelID cl)] else [])).
Proof.
  intros Hcl HT [b Hb] Hopen. unfold Unregister, deref. rewrite Hcl. simpl.
  rewrite HT. unfold Unregister_remove. rewrite Hb.
  unfold chan_close. rewrite Hopen. simpl. unfold channels_without.
  by destruct (decide (size (delete c clients) = 0)).
Qed.


(** ** The invariant *)

Lemma inv_init : inv NewHub.
Proof. by constructor; simpl; intros *; rewrite ?lookup_empty; try set_solver; intros []. Qed.

Lemma heap_same_shape_fwd (hp hp' : gmap ptr Client) (c : ptr) (cl : Client) :
  heap_same_shape hp hp' → hp !! c = Some cl →
  ∃ cl', hp' !! c = Some cl' ∧ same_shape cl cl'.
Proof.
  intros Hsh Hcl. specialize (Hsh c). rewrite Hcl in Hsh.
  destruct (hp' !! c) as [cl'|]; [|done]. by exists cl'.
Qed.

Lemma heap_same_shape_bwd (hp hp' : gmap ptr Client) (c : ptr) (cl' : Client) :
  heap_same_shape hp hp' → hp' !! c = Some cl' →
  ∃ cl, hp !! c = Some cl ∧ same_shape cl cl'.
Proof.
  intros Hsh Hcl. specialize (Hsh c). rewrite Hcl in Hsh.
  destruct (hp !! c) as [cl|]; [|done]. by exists cl.
Qed.

Lemma inv_set_heap (w : World) (hp : gmap ptr Client) :
  inv w → heap_same_shape (heap w) hp → inv (set_heap hp w).
Proof.
  intros Hinv Hsh. constructor; simpl.
  - apply (inv_nonempty _ Hinv).
  - intros T clients c HT Hc.
    destruct (inv_member _ Hinv _ _ _ HT Hc) as (cl & Hcl & Hbound & Hrd).
    destruct (heap_same_shape_fwd _ _ _ _ Hsh Hcl) as (cl' & Hcl' & _ & Hid & _).
    exists cl'. by rewrite Hid.
  - intros c Hrd.
    destruct (inv_reader _ Hinv _ Hrd) as (cl & clients & Hcl & HT & Hc).
    destruct (heap_same_shape_fwd _ _ _ _ Hsh Hcl) as (cl' & Hcl' & _ & Hid & _).
    exists cl', clients. by rewrite Hid.
  - intros c cl' Hcl'.
    destruct (heap_same_shape_bwd _ _ _ _ Hsh Hcl') as (cl & Hcl & _ & _ & Hcap & Hclosed & Hlen).
    destruct (inv_chan _ Hinv _ _ Hcl) as (Hcap0 & _ & Hcl0).
    rewrite Hclosed, <- Hcap0, <- Hcap. by rewrite Hcap in Hlen |- *.
  - intros c cl' Hcl'.
    destruct (heap_same_shape_bwd _ _ _ _ Hsh Hcl') as (cl & Hcl & Hconn & _).
    rewrite Hconn. by apply (inv_conn _ Hinv).
  - intros c [cl' Hcl'].
    destruct (heap_same_shape_bwd _ _ _ _ Hsh Hcl') as (cl & Hcl & _).
    by apply (inv_next _ Hinv).
  - intros c Hwr. destruct (inv_writer _ Hinv _ Hwr) as [cl Hcl].
    destruct (heap_same_shape_fwd _ _ _ _ Hsh Hcl) as (cl' & Hcl' & _). by exists cl'.
Qed.

Lemma inv_same_shape_refl (w : World) (c : ptr) (cl : Client) :
  inv w → heap w !! c = Some cl → same_shape cl cl.
Proof.
  intros Hinv Hcl. destruct (inv_chan _ Hinv _ _ Hcl) as (Hcap & Hlen & _).
  repeat split. by rewrite Hcap.
Qed.

Lemma heap_same_shape_insert (w : World) (c : ptr) (cl cl' : Client) :
  inv w → heap w !! c = Some cl → same_shape cl cl' →
  heap_same_shape (heap w) (<[c := cl']> (heap w)).
Proof.
  intros Hinv Hcl Hsh c'. rewrite lookup_insert. case_decide as Hc; subst.
  - by rewrite Hcl.
  - destruct (heap w !! c') as [cl0|] eqn:Hcl0; [|done].
    by eapply inv_same_shape_refl.
Qed.

Lemma heap_same_shape_offer (w : World) (m : payload) (P : ptr → Prop)
    `{∀ c, Decision (P c)} (hp : gmap ptr Client) :
  inv w →
  (∀ c, hp !! c = if decide (P c) then offer m <$> heap w !! c else heap w !! c) →
  heap_same_shape (heap w) hp.
Proof.
  intros Hinv Hhp c. rewrite Hhp.
  destruct (heap w !! c) as [cl|] eqn:Hcl; [|by case_decide].
  pose proof (inv_same_shape_refl _ _ _ Hinv Hcl) as (_ & _ & _ & _ & Hlen).
  case_decide; simpl; [|by eapply inv_same_shape_refl].
  destruct (offer_fields m cl) as (Hconn & Hid & Hcap & Hclosed & _).
  repeat split; try done. rewrite Hcap. by apply offer_length.
Qed.

Lemma Broadcast_inv (w : World) (T : string) (m : payload) :
  inv w → ∃ w' ev, Broadcast T m w = Ok (w', ev) ∧ inv w'.
Proof.
  intros Hinv. destruct (Broadcast_spec w T m Hinv) as (hp & Hrun & Hhp).
  eexists _, _. split; [done|]. apply inv_set_heap; [done|].
  by apply (heap_same_shape_offer w m (λ c, c ∈ members_of w T)).
Qed.

Lemma inv_writer_exit (w : World) (c : ptr) :
  inv w → inv (set_writers (writers w ∖ {[c]}) (conn_Close c w)).
Proof.
  intros Hinv. constructor; simpl.
  - apply (inv_nonempty _ Hinv).
  - intros T clients c' HT Hc'.
    destruct (inv_member _ Hinv _ _ _ HT Hc') as (cl & Hcl & Hbound & Hrd).
    rewrite lookup_alter. case_decide; subst; [rewrite Hcl; simpl|]; by eexists.
  - intros c' Hrd.
    destruct (inv_reader _ Hinv _ Hrd) as (cl & clients & Hcl & HT & Hc').
    rewrite lookup_alter. case_decide; subst; [rewrite Hcl; simpl|]; by eexists _, clients.
  - intros c' cl' [(-> & cl & Hcl & ->)|(Hne & Hcl)]%lookup_alter_Some; simpl;
      by apply (inv_chan _ Hinv).
  - intros c' cl' [(-> & cl & Hcl & ->)|(Hne & Hcl)]%lookup_alter_Some; simpl.
    + split; [intros _; right; set_solver|done].
    + rewrite (inv_conn _ Hinv _ _ Hcl). set_solver.
  - intros c' Hc'%lookup_alter_is_Some. by apply (inv_next _ Hinv).
  - intros c' Hwr. apply lookup_alter_is_Some, (inv_writer _ Hinv). set_solver.
Qed.

Lemma writePump_iter_inv (w : World) (c : ptr) (write_ok : bool) :
  inv w → c ∈ writers w →
  ∃ w' ev, writePump_iter c write_ok w = Ok (w', ev) ∧ inv w'.
Proof.
  intros Hinv Hwr. destruct (inv_writer _ Hinv _ Hwr) as [cl Hcl].
  unfold writePump_iter, deref. rewrite Hcl. simpl. unfold chan_recv.
  destruct (buf (send cl)) as [|m rest] eqn:Hbuf.
  - destruct (closed (send cl)).
    + eexists _, _. split; [done|]. by apply inv_writer_exit.
    + by eexists _, _.
  - set (cl' := set_send _ cl).
    assert (inv (set_heap (<[c:=cl']> (heap w)) w)) as Hinv1.
    { apply inv_set_heap; [done|]. eapply heap_same_shape_insert; [done..|].
      destruct (inv_chan _ Hinv _ _ Hcl) as (Hcap & Hlen & _).
      repeat split. simpl. rewrite Hbuf in Hlen. simpl in Hlen. lia. }
    destruct write_ok.
    + by eexists _, _.
    + eexists _, _. split; [done|]. by apply (inv_writer_exit _ c) in Hinv1.
Qed.

Lemma lookup_channels_without (c : ptr) (T T' : string) (clients : gmap ptr bool)
    (chs : gmap string (gmap ptr bool)) :
  channels_without c T clients chs !! T' =
    if decide (T = T')
    then (if decide (size (delete c clients) = 0) then None else Some (delete c clients))
    else chs !! T'.
Proof.
  unfold channels_without.
  destruct (decide (size (delete c clients) = 0)).
  - by rewrite lookup_delete.
  - by rewrite lookup_insert.
Qed.

Lemma inv_reader_open (w : World) (c : ptr) :
  inv w → c ∈ readers w →
  ∃ cl clients, heap w !! c = Some cl ∧ channels w !! channelID cl = Some clients ∧
    is_Some (clients !! c) ∧ closed (send cl) = false.
Proof.
  intros Hinv Hrd.
  destruct (inv_reader _ Hinv _ Hrd) as (cl & clients & Hcl & HT & Hc).
  exists cl, clients. repeat split; try done.
  destruct (inv_chan _ Hinv _ _ Hcl) as (_ & _ & Hclosed).
  destruct (closed (send cl)); [|done]. exfalso. by apply Hclosed.
Qed.

Lemma readPump_exit_inv (w : World) (c : ptr) :
  inv w → c ∈ readers w →
  ∃ w' ev, readPump_exit c w = Ok (w', ev) ∧ inv w'.
Proof.
  intros Hinv Hrd.
  destruct (inv_reader_open _ _ Hinv Hrd) as (cl & clients & Hcl & HT & Hc & Hopen).
  unfold readPump_exit. rewrite (Unregister_member _ _ _ _ Hcl HT Hc Hopen). simpl.
  eexists _, _. split; [done|].
  assert (Hother : ∀ c' cl', c' ≠ c → heap w !! c' = Some cl' →
    alter (set_conn (mkConn true)) c (<[c:=close_send cl]> (heap w)) !! c' = Some cl').
  { intros c' cl' Hne Hcl'. by rewrite lookup_alter_ne, lookup_insert_ne. }
  assert (Hback : ∀ c' cl',
    alter (set_conn (mkConn true)) c (<[c:=close_send cl]> (heap w)) !! c' = Some cl' →
    (c' = c ∧ cl' = set_conn (mkConn true) (close_send cl)) ∨
    (c' ≠ c ∧ heap w !! c' = Some cl')).
  { intros c' cl'. rewrite lookup_alter. case_decide; subst.
    - rewrite lookup_insert_eq. simpl. intros [= <-]. by left.
    - rewrite lookup_insert_ne by done. by right. }
  constructor; simpl.
  - intros T' cs'. rewrite lookup_channels_without.
    case_decide; [|by apply (inv_nonempty _ Hinv)].
    case_decide; [done|]. intros [= <-]. by apply map_size_non_empty_iff.
  - intros T' cs' c'. rewrite lookup_channels_without. case_decide as HTT; subst.
    + case_decide; [done|]. intros [= <-] [Hne Hc']%lookup_delete_is_Some.
      destruct (inv_member _ Hinv _ _ _ HT Hc') as (cl' & Hcl' & Hbound & Hrd').
      exists cl'. rewrite (Hother c' cl') by done. split_and!; [done..|set_solver].
    + intros HT' Hc'.
      destruct (inv_member _ Hinv _ _ _ HT' Hc') as (cl' & Hcl' & Hbound & Hrd').
      assert (c' ≠ c) by (intros ->; congruence).
      exists cl'. rewrite (Hother c' cl') by done. split_and!; [done..|set_solver].
  - intros c' Hrd'. assert (c' ≠ c ∧ c' ∈ readers w) as [Hne Hrd0] by set_solver.
    destruct (inv_reader _ Hinv _ Hrd0) as (cl' & clients' & Hcl' & HT' & Hc').
    rewrite (Hother c' cl') by done. exists cl'.
    rewrite lookup_channels_without. case_decide as HTT.
    + rewrite HTT, HT' in HT. injection HT as ->.
      assert (is_Some (delete c clients !! c')) as Hdel.
      { apply lookup_delete_is_Some. split; [done|]. done. }
      rewrite decide_False by by eapply map_size_ne_0_lookup_2.
      by eexists.
    + by exists clients'.
  - intros c' cl' [[-> ->]|[Hne Hcl']]%Hback; simpl.
    + destruct (inv_chan _ Hinv _ _ Hcl) as (Hcap & Hlen & _).
      split_and!; [done..|]. split; [set_solver|done].
    + destruct (inv_chan _ Hinv _ _ Hcl') as (Hcap & Hlen & Hclosed).
      split_and!; [done..|]. rewrite Hclosed. set_solver.
  - intros c' cl' [[-> ->]|[Hne Hcl']]%Hback; simpl.
    + split; [intros _; left; set_solver|done].
    + rewrite (inv_conn _ Hinv _ _ Hcl'). set_solver.
  - intros c' [Heq|Hc']%lookup_alter_is_Some%lookup_insert_is_Some'.
    + subst. by apply (inv_next _ Hinv).
    + by apply (inv_next _ Hinv).
  - intros c' Hwr. apply lookup_alter_is_Some, lookup_insert_is_Some'. right.
    by apply (inv_writer _ Hinv).
Qed.

Lemma readPump_iter_inv (json_Unmarshal : payload → option WSMessage)
    (json_Marshal : WSMessage → option payload)
    (w : World) (c : ptr) (rd : ReadResult) (now : string) :
  inv w → c ∈ readers w →
  ∃ w' ev, readPump_iter json_Unmarshal json_Marshal c rd now w = Ok (w', ev) ∧ inv w'.
Proof.
  intros Hinv Hrd.
  destruct (inv_reader _ Hinv _ Hrd) as (cl & _ & Hcl & _).
  unfold readPump_iter, deref. rewrite Hcl. simpl. destruct rd as [unexpected|raw].
  - destruct (readPump_exit_inv _ _ Hinv Hrd) as (w' & ev & -> & Hinv'). simpl.
    by eexists _, _.
  - destruct (json_Unmarshal raw) as [msg|]; [|by eexists _, _].
    destruct (json_Marshal _) as [outMsg|]; [|by eexists _, _].
    by apply Broadcast_inv.
Qed.

Lemma inv_next_fresh (w : World) : inv w → heap w !! next w = None.
Proof.
  intros Hinv. destruct (heap w !! next w) eqn:Hc; [|done].
  assert (next w < next w) by (apply (inv_next _ Hinv); by rewrite Hc). lia.
Qed.

(** The world [HandleWebSocket] leaves once the upgrade succeeded. *)
Lemma HandleWebSocket_accept (channel : string) (w : World) :
  channel ≠ "" →
  HandleWebSocket channel Upgraded w =
    Ok (mkWorld
          (<[channel := <[next w := true]> (default ∅ (channels w !! channel))]> (channels w))
          (<[next w := mkClient (mkConn false) (make_chan 256) channel]> (heap w))
          (S (next w)) ({[next w]} ∪ readers w) ({[next w]} ∪ writers w),
        [EvLog ("Client connected to channel " +:+ channel)]).
Proof.
  intros Hne. unfold HandleWebSocket. rewrite decide_False by done. simpl.
  erewrite Register_spec; [|simpl; apply lookup_insert_eq]. done.
Qed.

Lemma HandleWebSocket_refuse (channel : string) (reply : option (nat * string))
    (w : World) :
  channel ≠ "" →
  HandleWebSocket channel (UpgradeError reply) w =
    Ok (w, upgrade_reply reply ++ [EvLog "WebSocket upgrade error"]).
Proof. intros Hne. unfold HandleWebSocket. by rewrite decide_False. Qed.

Lemma HandleWebSocket_inv (channel : string) (upgrade : UpgradeResult) (w : World) :
  inv w → ∃ w' ev, HandleWebSocket channel upgrade w = Ok (w', ev) ∧ inv w'.
Proof.
  intros Hinv. destruct (decide (channel = "")) as [->|Hne].
  { by eexists _, _. }
  destruct upgrade as [|reply]; cycle 1.
  { rewrite HandleWebSocket_refuse by done. by eexists _, _. }
  rewrite HandleWebSocket_accept by done. eexists _, _. split; [done|].
  pose proof (inv_next_fresh _ Hinv) as Hfresh.
  set (c := next w) in *.
  assert (Hnr : c ∉ readers w).
  { intros Hrd. destruct (inv_reader _ Hinv _ Hrd) as (? & ? & ? & _). congruence. }
  assert (Hnw : c ∉ writers w).
  { intros Hwr. destruct (inv_writer _ Hinv _ Hwr). congruence. }
  constructor; simpl.
  - intros T cs. rewrite lookup_insert. case_decide; [|by apply (inv_nonempty _ Hinv)].
    intros [= <-]. apply insert_non_empty.
  - intros T cs c'. rewrite lookup_insert. destruct (decide (channel = T)) as [<-|HT].
    + intros [= <-]. rewrite lookup_insert. destruct (decide (c = c')) as [<-|Hc].
      * intros _. rewrite lookup_insert_eq. eexists. split_and!; [done..|set_solver].
      * destruct (channels w !! channel) as [old|] eqn:Hold; simpl;
          [|rewrite lookup_empty; by intros []].
        intros Hc'.
        destruct (inv_member _ Hinv _ _ _ Hold Hc') as (cl' & Hcl' & Hbound & Hrd').
        exists cl'. rewrite lookup_insert_ne by done. split_and!; [done..|set_solver].
    + intros HT' Hc'.
      destruct (inv_member _ Hinv _ _ _ HT' Hc') as (cl' & Hcl' & Hbound & Hrd').
      assert (c ≠ c') by (intros ->; congruence).
      exists cl'. rewrite lookup_insert_ne by done. split_and!; [done..|set_solver].
  - intros c' Hrd'. destruct (decide (c' = c)) as [->|Hc].
    + rewrite lookup_insert_eq. eexists _, _. split; [done|]. simpl.
      rewrite lookup_insert_eq. split; [done|]. by rewrite lookup_insert_eq.
    + assert (c' ∈ readers w) as Hrd0 by set_solver.
      destruct (inv_reader _ Hinv _ Hrd0) as (cl' & clients' & Hcl' & HT' & Hc').
      rewrite lookup_insert_ne by done. exists cl'.
      rewrite lookup_insert. destruct (decide (channel = channelID cl')) as [->|HT].
      * eexists. split; [done|]. split; [done|]. rewrite HT'. simpl.
        by rewrite lookup_insert_ne.
      * by exists clients'.
  - intros c' cl'. rewrite lookup_insert. destruct (decide (c = c')) as [<-|Hc].
    + intros [= <-]. simpl. split_and!; [done|lia|]. split; [done|set_solver].
    + intros Hcl'. destruct (inv_chan _ Hinv _ _ Hcl') as (Hcap & Hlen & Hclosed).
      split_and!; [done..|]. rewrite Hclosed. set_solver.
  - intros c' cl'. rewrite lookup_insert. destruct (decide (c = c')) as [<-|Hc].
    + intros [= <-]. simpl. split; [done|set_solver].
    + intros Hcl'. rewrite (inv_conn _ Hinv _ _ Hcl'). set_solver.
  - intros c' [Heq|Hc']%lookup_insert_is_Some'.
    + subst. lia.
    + apply (inv_next _ Hinv) in Hc'. lia.
  - intros c' Hwr. apply lookup_insert_is_Some'.
    destruct (decide (c = c')); [by left|right].
    apply (inv_writer _ Hinv). set_solver.
Qed.

(** Every enabled turn runs to a result, and the invariant carries over. *)
Lemma step_inv (json_Unmarshal : payload → option WSMessage)
    (json_Marshal : WSMessage → option payload) (w : World) (i : Input) :
  inv w → enabled w i = true →
  ∃ w' ev, step json_Unmarshal json_Marshal w i = Ok (w', ev) ∧ inv w'.
Proof.
  intros Hinv Hen. destruct i as [channel upgrade|c rd now|c write_ok]; simpl.
  - by apply HandleWebSocket_inv.
  - apply readPump_iter_inv; [done|]. by apply bool_decide_eq_true in Hen.
  - apply writePump_iter_inv; [done|]. simpl in Hen.
    apply andb_true_iff in Hen as [Hen _]. by apply bool_decide_eq_true in Hen.
Qed.

Lemma reaches_inv (json_Unmarshal : payload → option WSMessage)
    (json_Marshal : WSMessage → option payload) (w : World) (tr : list Event) :
  reaches json_Unmarshal json_Marshal w tr → inv w.
Proof.
  induction 1 as [|w tr i w' ev _ IH Hen Hstep]; [apply inv_init|].
  destruct (step_inv json_Unmarshal json_Marshal w i IH Hen) as (w1 & ev1 & Hstep1 & Hinv1).
  congruence.
Qed.

(** ** Traces *)

Lemma accepted_app (c : ptr) (tr1 tr2 : list Event) :
  accepted c (tr1 ++ tr2) = accepted c tr1 ++ accepted c tr2.
Proof.
  induction tr1 as [|e tr1 IH]; [done|].
  destruct e; simpl; try done. case_decide; simpl; by rewrite IH.
Qed.

Lemma dequeued_app (c : ptr) (tr1 tr2 : list Event) :
  dequeued c (tr1 ++ tr2) = dequeued c tr1 ++ dequeued c tr2.
Proof.
  induction tr1 as [|e tr1 IH]; [done|].
  destruct e; simpl; try done. case_decide; simpl; by rewrite IH.
Qed.

Lemma dequeued_offer (hp : gmap ptr Client) (m : payload) (c : ptr) (order : list ptr) :
  dequeued c (offer_event hp m <$> order) = [].
Proof.
  induction order as [|c' order IH]; [done|]. simpl. unfold offer_event at 1.
  destruct (hp !! c') as [cl|]; [destruct (room cl)|]; done.
Qed.

Lemma accepted_offer_notin (hp : gmap ptr Client) (m : payload) (c : ptr) (order : list ptr) :
  c ∉ order → accepted c (offer_event hp m <$> order) = [].
Proof.
  induction order as [|c' order IH]; [done|].
  intros [Hne Hnin]%not_elem_of_cons. simpl. unfold offer_event at 1.
  destruct (hp !! c') as [cl|]; [destruct (room cl)|]; simpl; auto.
  rewrite decide_False by done. auto.
Qed.

Lemma accepted_offer_in (hp : gmap ptr Client) (m : payload) (c : ptr) (cl : Client)
    (order : list ptr) :
  NoDup order → c ∈ order → hp !! c = Some cl →
  accepted c (offer_event hp m <$> order) = if room cl then [m] else [].
Proof.
  intros Hnd Hin Hcl. induction order as [|c' order IH]; [by apply elem_of_nil in Hin|].
  apply NoDup_cons in Hnd as [Hc' Hnd]. simpl.
  destruct (decide (c' = c)) as [->|Hne].
  - unfold offer_event at 1. rewrite Hcl.
    destruct (room cl); simpl; rewrite ?decide_True by done;
      by rewrite accepted_offer_notin.
  - assert (c ∈ order) as Hin' by set_solver.
    unfold offer_event at 1.
    destruct (hp !! c') as [cl'|]; [destruct (room cl')|]; simpl;
      rewrite ?decide_False by done; auto.
Qed.

Lemma Broadcast_fifo (w w' : World) (T : string) (m : payload) (ev : list Event) (c : ptr) :
  inv w → Broadcast T m w = Ok (w', ev) →
  pending w c ++ accepted c ev = dequeued c ev ++ pending w' c.
Proof.
  intros Hinv Hrun. destruct (Broadcast_spec w T m Hinv) as (hp & Hspec & Hhp).
  rewrite Hspec in Hrun. injection Hrun as <- <-.
  rewrite dequeued_offer. unfold pending. simpl. rewrite Hhp.
  destruct (decide (c ∈ members_of w T)) as [Hin|Hnin].
  - destruct (inv_member_open _ _ _ Hinv Hin) as (cl & Hcl & _).
    rewrite Hcl. simpl.
    rewrite (accepted_offer_in _ _ _ cl); [| |by apply elem_of_range_order_members|done].
    + destruct (offer_fields m cl) as (_ & _ & _ & _ & ->).
      destruct (room cl); [done|]. by rewrite app_nil_r.
    + unfold range_order. destruct (channels w !! T); [|constructor].
      apply NoDup_fst_map_to_list.
  - rewrite accepted_offer_notin; [by rewrite app_nil_r|].
    by rewrite elem_of_range_order_members.
Qed.

Lemma step_fifo (json_Unmarshal : payload → option WSMessage)
    (json_Marshal : WSMessage → option payload)
    (w w' : World) (i : Input) (ev : list Event) (c : ptr) :
  inv w → enabled w i = true → step json_Unmarshal json_Marshal w i = Ok (w', ev) →
  pending w c ++ accepted c ev = dequeued c ev ++ pending w' c.
Proof.
  intros Hinv Hen Hstep. destruct i as [channel upgrade|c0 rd now|c0 write_ok]; simpl in *.
  - destruct (decide (channel = "")) as [->|Hne].
    { injection Hstep as <- <-. simpl. by rewrite app_nil_r. }
    destruct upgrade as [|reply]; cycle 1.
    { rewrite HandleWebSocket_refuse in Hstep by done. injection Hstep as <- <-.
      destruct reply as [[status body]|]; simpl; by rewrite app_nil_r. }
    rewrite HandleWebSocket_accept in Hstep by done. injection Hstep as <- <-.
    simpl. rewrite app_nil_r. unfold pending. simpl.
    rewrite lookup_insert. destruct (decide (next w = c)) as [<-|Hc]; [|done].
    by rewrite (inv_next_fresh _ Hinv).
  - assert (c0 ∈ readers w) as Hrd.
    { by apply bool_decide_eq_true in Hen. }
    destruct (inv_reader_open _ _ Hinv Hrd) as (cl & clients & Hcl & HT & Hc0 & Hopen).
    unfold readPump_iter, deref in Hstep. rewrite Hcl in Hstep. simpl in Hstep.
    destruct rd as [unexpected|raw].
    + unfold readPump_exit in Hstep.
      rewrite (Unregister_member _ _ _ _ Hcl HT Hc0 Hopen) in Hstep. simpl in Hstep.
      injection Hstep as <- <-.
      assert (pending (set_readers (readers w ∖ {[c0]})
                (conn_Close c0 (set_heap (<[c0:=close_send cl]> (heap w))
                   (set_channels (channels_without c0 (channelID cl) clients (channels w)) w)))) c
              = pending w c) as ->.
      { unfold pending. simpl. rewrite lookup_alter.
        destruct (decide (c0 = c)) as [<-|Hne].
        - rewrite lookup_insert_eq. by rewrite Hcl.
        - by rewrite lookup_insert_ne. }
      destruct unexpected, (decide (size (delete c0 clients) = 0)); simpl;
        by rewrite app_nil_r.
    + destruct (json_Unmarshal raw) as [msg|].
      2:{ injection Hstep as <- <-. simpl. by rewrite app_nil_r. }
      destruct (json_Marshal _) as [outMsg|].
      2:{ injection Hstep as <- <-. simpl. by rewrite app_nil_r. }
      by eapply Broadcast_fifo.
  - apply andb_true_iff in Hen as [Hwr Hen]. apply bool_decide_eq_true in Hwr.
    destruct (inv_writer _ Hinv _ Hwr) as [cl Hcl].
    unfold writePump_iter, deref in Hstep. rewrite Hcl in Hstep. simpl in Hstep.
    unfold chan_recv in Hstep. destruct (buf (send cl)) as [|m rest] eqn:Hbuf.
    + destruct (closed (send cl)); injection Hstep as <- <-; simpl;
        rewrite app_nil_r; [|done].
      unfold pending. simpl. rewrite lookup_alter.
      destruct (decide (c0 = c)) as [<-|Hne]; [|done]. by rewrite Hcl.
    + destruct write_ok; injection Hstep as <- <-; simpl; unfold pending; simpl.
      * rewrite lookup_insert. destruct (decide (c0 = c)) as [<-|Hne].
        -- rewrite Hcl, Hbuf. by rewrite app_nil_r.
        -- by rewrite app_nil_r.
      * rewrite lookup_alter. destruct (decide (c0 = c)) as [<-|Hne].
        -- rewrite lookup_insert_eq, Hcl, Hbuf. by rewrite app_nil_r.
        -- rewrite lookup_insert_ne by done. by rewrite app_nil_r.
Qed.

Lemma run_reaches (json_Unmarshal : payload → option WSMessage)
    (json_Marshal : WSMessage → option payload) (inputs : list Input) :
  ∀ w tr w' ev,
    reaches json_Unmarshal json_Marshal w tr →
    run json_Unmarshal json_Marshal inputs w = Ok (w', ev) →
    reaches json_Unmarshal json_Marshal w' (tr ++ ev).
Proof.
  induction inputs as [|i inputs IH]; intros w tr w' ev Hreach Hrun; simpl in Hrun.
  - injection Hrun as <- <-. by rewrite app_nil_r.
  - destruct (enabled w i) eqn:Hen; [|by eapply IH].
    destruct (step json_Unmarshal json_Marshal w i) as [[w1 ev1]|] eqn:Hstep; [|done].
    simpl in Hrun.
    destruct (run json_Unmarshal json_Marshal inputs w1) as [[w2 ev2]|] eqn:Hrest; [|done].
    injection Hrun as <- <-. rewrite app_assoc. eapply IH; [|done].
    by eapply reaches_step.
Qed.

Lemma size_delete_zero (clients : gmap ptr bool) (c : ptr) :
  is_Some (clients !! c) → size (delete c clients) = 0 ↔ dom clients = {[c]}.
Proof.
  intros Hc. rewrite map_size_empty_iff. split.
  - intros Hempty. apply set_eq. intros c'. rewrite elem_of_dom, elem_of_singleton.
    split; [|by intros ->].
    intros Hc'. destruct (decide (c' = c)) as [|Hne]; [done|].
    rewrite <- (lookup_delete_ne clients c c'), Hempty, lookup_empty in Hc' by done.
    by destruct Hc'.
  - intros Hdom. apply map_empty. intros c'.
    destruct (decide (c = c')) as [->|Hne]; [apply lookup_delete_eq|].
    rewrite lookup_delete_ne by done. apply not_elem_of_dom. rewrite Hdom. set_solver.
Qed.

(** A turn of a pump leaves every client bound to the channel it was
    created for, and a client is only ever created for a channel with a
    name. *)
Lemma step_bound (json_Unmarshal : payload → option WSMessage)
    (json_Marshal : WSMessage → option payload)
    (w w' : World) (i : Input) (ev : list Event) :
  inv w → enabled w i = true → step json_Unmarshal json_Marshal w i = Ok (w', ev) →
  (∀ c cl, heap w !! c = Some cl → channelID cl ≠ "") →
  ∀ c cl, heap w' !! c = Some cl → channelID cl ≠ "".
Proof.
  intros Hinv Hen Hstep Hb c cl'.
  destruct i as [channel upgrade|c0 rd now|c0 write_ok]; simpl in *.
  - destruct (decide (channel = "")) as [->|Hne].
    { injection Hstep as <- <-. apply Hb. }
    destruct upgrade as [|reply]; cycle 1.
    { rewrite HandleWebSocket_refuse in Hstep by done. injection Hstep as <- <-. apply Hb. }
    rewrite HandleWebSocket_accept in Hstep by done. injection Hstep as <- <-.
    simpl. rewrite lookup_insert. case_decide; [by intros [= <-]|apply Hb].
  - apply bool_decide_eq_true in Hen.
    destruct (inv_reader_open _ _ Hinv Hen) as (cl & clients & Hcl & HT & Hc0 & Hopen).
    unfold readPump_iter, deref in Hstep. rewrite Hcl in Hstep. simpl in Hstep.
    destruct rd as [unexpected|raw].
    + unfold readPump_exit in Hstep.
      rewrite (Unregister_member _ _ _ _ Hcl HT Hc0 Hopen) in Hstep. simpl in Hstep.
      injection Hstep as <- <-. simpl. rewrite lookup_alter.
      destruct (decide (c0 = c)) as [<-|Hne].
      * rewrite lookup_insert_eq. intros [= <-]. simpl. by apply (Hb c0).
      * rewrite lookup_insert_ne by done. apply Hb.
    + destruct (json_Unmarshal raw) as [msg|].
      2:{ injection Hstep as <- <-. apply Hb. }
      destruct (json_Marshal _) as [outMsg|].
      2:{ injection Hstep as <- <-. apply Hb. }
      destruct (Broadcast_spec w (channelID cl) outMsg Hinv) as (hp & Hspec & Hhp).
      rewrite Hspec in Hstep. injection Hstep as <- <-. simpl. rewrite Hhp.
      destruct (decide (c ∈ members_of w (channelID cl))); [|apply Hb].
      destruct (heap w !! c) as [cl0|] eqn:Hcl0; [|done]. simpl. intros [= <-].
      destruct (offer_fields outMsg cl0) as (_ & -> & _). by apply (Hb c).
  - apply andb_true_iff in Hen as [Hwr Hen]. apply bool_decide_eq_true in Hwr.
    destruct (inv_writer _ Hinv _ Hwr) as [cl Hcl].
    unfold writePump_iter, deref in Hstep. rewrite Hcl in Hstep. simpl in Hstep.
    unfold chan_recv in Hstep. destruct (buf (send cl)) as [|m rest] eqn:Hbuf.
    + destruct (closed (send cl)); injection Hstep as <- <-; simpl; [|apply Hb].
      rewrite lookup_alter. destruct (decide (c0 = c)) as [<-|Hne]; [|apply Hb].
      rewrite Hcl. intros [= <-]. simpl. by apply (Hb c0).
    + destruct write_ok; injection Hstep as <- <-; simpl.
      * rewrite lookup_insert. destruct (decide (c0 = c)) as [<-|Hne]; [|apply Hb].
        intros [= <-]. simpl. by apply (Hb c0).
      * rewrite lookup_alter. destruct (decide (c0 = c)) as [<-|Hne].
        -- rewrite lookup_insert_eq. intros [= <-]. simpl. by apply (Hb c0).
        -- rewrite lookup_insert_ne by done. apply Hb.
Qed.

Lemma reaches_bound (json_Unmarshal : payload → option WSMessage)
    (json_Marshal : WSMessage → option payload) (w : World) (tr : list Event) :
  reaches json_Unmarshal json_Marshal w tr →
  ∀ c cl, heap w !! c = Some cl → channelID cl ≠ "".
Proof.
  induction 1 as [|w tr i w' ev Hreach IH Hen Hstep].
  - intros c cl. simpl. by rewrite lookup_empty.
  - eapply step_bound; [|done..]. by eapply reaches_inv.
Qed.

(** One turn of the outbound loop on a mailbox that is not empty. *)
Lemma writePump_iter_head (w : World) (c : ptr) (m : payload) (rest : list payload)
    (write_ok : bool) :
  pending w c = m :: rest →
  ∃ w', writePump_iter c write_ok w
          = Ok (w', EvWrite c m write_ok :: (if write_ok then [] else [EvConnClose c])) ∧
    pending w' c = rest ∧
    (∀ c', c' ≠ c → pending w' c' = pending w c') ∧
    channels w' = channels w ∧ readers w' = readers w.
Proof.
  unfold pending. destruct (heap w !! c) as [cl|] eqn:Hcl; [|done]. intros Hbuf.
  unfold writePump_iter, deref, chan_recv. rewrite Hcl. simpl. rewrite Hbuf.
  destruct write_ok; simpl; eexists; (split; [done|]); simpl.
  - rewrite lookup_insert_eq. split_and!; [done| |done..].
    intros c' Hne. by rewrite lookup_insert_ne.
  - rewrite lookup_alter_eq, lookup_insert_eq. split_and!; [done| |done..].
    intros c' Hne. by rewrite lookup_alter_ne, lookup_insert_ne.
Qed.

(** ** The properties of the hub *)

Section Claims.

Context (json_Unmarshal : payload → option WSMessage).
Context (json_Marshal : WSMessage → option payload).

Local Abbreviation reachable := (reaches json_Unmarshal json_Marshal).
Local Abbreviation readPump_turn := (readPump_iter json_Unmarshal json_Marshal).

(** C1. In a reachable world [Broadcast] returns without a panic, after one
    non-blocking send per member of the channel, each to a mailbox of
    capacity 256: a member whose mailbox holds fewer than 256 payloads gets
    the payload appended, a member whose mailbox is full is left as it was,
    and so is every client outside the channel; the registry is untouched
    and the only events are one [EvSend] or [EvSkip] per member. *)
Theorem Broadcast_drops_only_when_full (w : World) (tr : list Event)
    (T : string) (m : payload) :
  reachable w tr →
  ∃ w' order,
    Broadcast T m w = Ok (w', offer_event (heap w) m <$> order) ∧
    NoDup order ∧ (∀ c, c ∈ order ↔ c ∈ members_of w T) ∧
    channels w' = channels w ∧
    ∀ c cl, heap w !! c = Some cl →
      cap (send cl) = 256 ∧
      heap w' !! c =
        Some (if decide (c ∈ members_of w T ∧ length (buf (send cl)) < 256)
              then set_send (mkChan (buf (send cl) ++ [m]) 256 false) cl
              else cl).
Proof.
  intros Hinv%reaches_inv.
  destruct (Broadcast_spec w T m Hinv) as (hp & Hrun & Hhp).
  exists (set_heap hp w), (range_order w T). split_and!; [done| | |done|].
  - unfold range_order. destruct (channels w !! T); [|constructor].
    apply NoDup_fst_map_to_list.
  - apply elem_of_range_order_members.
  - intros c cl Hcl. destruct (inv_chan _ Hinv _ _ Hcl) as (Hcap & _ & _).
    split; [done|]. simpl. rewrite Hhp, Hcl.
    destruct (decide (c ∈ members_of w T)) as [Hin|Hnin]; simpl.
    + destruct (inv_member_open _ _ _ Hinv Hin) as (cl' & Hcl' & _ & _ & Hopen).
      assert (cl' = cl) as -> by congruence.
      unfold offer, room. rewrite Hcap, Hopen.
      destruct (length (buf (send cl)) <? 256)%nat eqn:Hroom.
      * apply Nat.ltb_lt in Hroom. by rewrite decide_True.
      * apply Nat.ltb_ge in Hroom. rewrite decide_False; [done|]. lia.
    + rewrite decide_False; [done|]. by intros [? _].
Qed.

(** C2. For a payload that decodes, the message [readPump] marshals and
    hands to [Broadcast] on the channel of the client has [channel_id] the
    channel of the client, [type] "message", [created_at] the current time
    exactly when the decoded [created_at] is empty, and the decoded
    [author] and [content]. *)
Theorem readPump_stamps_message (w : World) (c : ptr) (cl : Client)
    (raw : payload) (now : string) (msg : WSMessage) :
  heap w !! c = Some cl → json_Unmarshal raw = Some msg →
  ∃ out,
    ChannelID out = channelID cl ∧ Type_ out = "message" ∧
    CreatedAt out = (if decide (CreatedAt msg = "") then now else CreatedAt msg) ∧
    Author out = Author msg ∧ Content out = Content msg ∧
    readPump_turn c (ReadMsg raw) now w =
      match json_Marshal out with
      | Some outMsg => Broadcast (channelID cl) outMsg w
      | None => Ok (w, [EvLog "Failed to marshal message"])
      end.
Proof.
  intros Hcl Hraw. exists (stamp (channelID cl) now msg).
  unfold readPump_iter, deref. rewrite Hcl. simpl. rewrite Hraw.
  unfold stamp. simpl. by destruct (decide (CreatedAt msg = "")).
Qed.

(** C10. A decoded [created_at] that is not empty goes out as it came in,
    whatever it is: the clock is not consulted and nothing checks that the
    text is a time. *)
Theorem created_at_forwarded_verbatim (w : World) (c : ptr) (cl : Client)
    (raw : payload) (now : string) (msg : WSMessage) :
  heap w !! c = Some cl → json_Unmarshal raw = Some msg → CreatedAt msg ≠ "" →
  readPump_turn c (ReadMsg raw) now w =
    match json_Marshal (mkWSMessage "message" (channelID cl) (Author msg)
                                    (Content msg) (CreatedAt msg)) with
    | Some outMsg => Broadcast (channelID cl) outMsg w
    | None => Ok (w, [EvLog "Failed to marshal message"])
    end.
Proof.
  intros Hcl Hraw Hne.
  unfold readPump_iter, deref. rewrite Hcl. simpl. rewrite Hraw.
  unfold stamp. simpl. by rewrite decide_False.
Qed.

(** C8. A payload that does not decode is logged and dropped: the turn of
    the inbound loop leaves the world as it was (the client stays
    registered with its mailbox open, its goroutines run on, no mailbox
    receives anything) and the loop goes on. *)
Theorem invalid_payload_discarded (w : World) (tr : list Event) (c : ptr)
    (raw : payload) (now : string) :
  reachable w tr → c ∈ readers w → json_Unmarshal raw = None →
  readPump_turn c (ReadMsg raw) now w = Ok (w, [EvLog "Invalid message format"]).
Proof.
  intros Hinv%reaches_inv Hrd Hraw.
  destruct (inv_reader _ Hinv _ Hrd) as (cl & _ & Hcl & _).
  unfold readPump_iter, deref. rewrite Hcl. simpl. by rewrite Hraw.
Qed.


(** C6. The payloads the outbound loop of a client has taken out of the
    mailbox and handed to [WriteMessage], followed by those still waiting
    in the mailbox, are the payloads the mailbox accepted, in the order it
    accepted them: what was taken out is a prefix of what went in, and a
    skipped payload, which is not among the accepted ones, never comes
    out.  A turn of the outbound loop on a mailbox that is not empty does
    not wait: it takes the payload at the head, the oldest one accepted
    and not yet written, hands that payload to [WriteMessage] and leaves
    the rest waiting in their order; so of two accepted payloads the
    earlier is written first. *)
Theorem mailbox_fifo (w : World) (tr : list Event) (c : ptr) :
  reachable w tr →
  accepted c tr = dequeued c tr ++ pending w c ∧
  ∀ m rest, pending w c = m :: rest →
    (c ∈ writers w → enabled w (InWrite c false) = true) ∧
    ∀ write_ok, ∃ w' ev,
      writePump_iter c write_ok w = Ok (w', ev) ∧
      ev = EvWrite c m write_ok :: (if write_ok then [] else [EvConnClose c]) ∧
      pending w' c = rest ∧
      dequeued c (tr ++ ev) = dequeued c tr ++ [m] ∧
      accepted c (tr ++ ev) = accepted c tr ∧
      ∀ c', c' ≠ c → pending w' c' = pending w c'.
Proof.
  intros Hreach. split.
  - induction Hreach as [|w tr i w' ev Hreach IH Hen Hstep]; [done|].
    pose proof (reaches_inv _ _ _ _ Hreach) as Hinv.
    rewrite accepted_app, dequeued_app, IH, <- !app_assoc. f_equal.
    by eapply step_fifo.
  - intros m rest Hpending. split.
    + intros Hwr. simpl. rewrite (bool_decide_eq_true_2 _ Hwr). simpl.
      unfold pending in Hpending. destruct (heap w !! c) as [cl|]; [|done].
      unfold chan_recv. by rewrite Hpending.
    + intros write_ok.
      destruct (writePump_iter_head w c m rest write_ok Hpending)
        as (w' & Hturn & Hrest & Hothers & _).
      eexists _, _. split; [done|]. split_and!; [done..| | |done].
      * rewrite dequeued_app. simpl. rewrite decide_True by done.
        by destruct write_ok.
      * rewrite accepted_app. simpl. destruct write_ok; simpl; by rewrite app_nil_r.
Qed.

(** C9. While the inbound loop of a client runs the client is a member of
    its own channel, so the broadcast of a message it publishes offers the
    payload to its own mailbox too: appended when the mailbox has room,
    skipped when it is full. *)
Theorem publisher_receives_own_message (w : World) (tr : list Event) (c : ptr)
    (raw : payload) (now : string) (msg : WSMessage) :
  reachable w tr → c ∈ readers w → json_Unmarshal raw = Some msg →
  ∃ cl, heap w !! c = Some cl ∧ c ∈ members_of w (channelID cl) ∧
    ∀ outMsg, json_Marshal (stamp (channelID cl) now msg) = Some outMsg →
      ∃ w' ev, readPump_turn c (ReadMsg raw) now w = Ok (w', ev) ∧
        (length (pending w c) < 256 →
           EvSend c outMsg ∈ ev ∧ pending w' c = pending w c ++ [outMsg]) ∧
        (256 ≤ length (pending w c) →
           EvSkip c outMsg ∈ ev ∧ pending w' c = pending w c).
Proof.
  intros Hinv%reaches_inv Hrd Hraw.
  destruct (inv_reader _ Hinv _ Hrd) as (cl & clients & Hcl & HT & Hc).
  assert (c ∈ members_of w (channelID cl)) as Hin.
  { unfold members_of. rewrite HT. by apply elem_of_dom. }
  exists cl. split_and!; [done..|]. intros outMsg Hout.
  unfold readPump_iter, deref. rewrite Hcl. simpl. rewrite Hraw, Hout.
  destruct (Broadcast_spec w (channelID cl) outMsg Hinv) as (hp & -> & Hhp).
  eexists _, _. split; [done|].
  destruct (inv_chan _ Hinv _ _ Hcl) as (Hcap & _ & _).
  assert (offer_event (heap w) outMsg c ∈
          offer_event (heap w) outMsg <$> range_order w (channelID cl)) as Hev.
  { apply list_elem_of_fmap_2, elem_of_range_order_members, Hin. }
  unfold offer_event in Hev at 1. rewrite Hcl in Hev.
  unfold pending. simpl. rewrite Hhp, decide_True, Hcl by done. simpl.
  destruct (offer_fields outMsg cl) as (_ & _ & _ & _ & ->).
  unfold room in *. rewrite Hcap in *.
  destruct (length (buf (send cl)) <? 256)%nat eqn:Hroom.
  - apply Nat.ltb_lt in Hroom. split; [done|lia].
  - apply Nat.ltb_ge in Hroom. split; [lia|done].
Qed.


(** C4. In a reachable world a channel has an entry in [h.channels]
    exactly when it has a member.  [Unregister] of the last member of a
    channel deletes the entry, so that the channel has no members any
    more and a [Broadcast] to it finds nobody, and a connection accepted
    for that channel afterwards is a new client, at an address no client
    has had, with an empty mailbox; its [Register] builds the member set
    anew, with the new client alone in it.  The same holds whenever a
    connection is accepted for a channel without members. *)
Theorem channel_entry_iff_member (w : World) (tr : list Event) :
  reachable w tr →
  (∀ T, is_Some (channels w !! T) ↔ members_of w T ≠ ∅) ∧
  (∀ c cl, heap w !! c = Some cl → members_of w (channelID cl) = {[c]} →
     ∃ w1 ev1, Unregister c w = Ok (w1, ev1) ∧
       channels w1 !! channelID cl = None ∧
       members_of w1 (channelID cl) = ∅ ∧
       (∀ m, Broadcast (channelID cl) m w1 = Ok (w1, [])) ∧
       heap w1 !! next w1 = None ∧
       ∃ w2 ev2, HandleWebSocket (channelID cl) Upgraded w1 = Ok (w2, ev2) ∧
         channels w2 !! channelID cl = Some {[next w1 := true]} ∧
         members_of w2 (channelID cl) = {[next w1]} ∧
         (c ∉ members_of w2 (channelID cl)) ∧
         heap w2 !! next w1
           = Some (mkClient (mkConn false) (make_chan 256) (channelID cl))) ∧
  (∀ T, T ≠ "" → members_of w T = ∅ →
     heap w !! next w = None ∧
     ∃ w2 ev2, HandleWebSocket T Upgraded w = Ok (w2, ev2) ∧
       channels w2 !! T = Some {[next w := true]} ∧
       members_of w2 T = {[next w]} ∧
       heap w2 !! next w = Some (mkClient (mkConn false) (make_chan 256) T)).
Proof.
  intros Hreach. pose proof (reaches_inv _ _ _ _ Hreach) as Hinv.
  assert (∀ T, is_Some (channels w !! T) ↔ members_of w T ≠ ∅) as Hentry.
  { intros T. unfold members_of.
    destruct (channels w !! T) as [clients|] eqn:HT.
    + split; [|by eexists]. intros _ Hdom.
      apply dom_empty_iff_L in Hdom. by apply (inv_nonempty _ Hinv _ _ HT).
    + split; [by intros []|done]. }
  assert (∀ w0 T, T ≠ "" → channels w0 !! T = None →
            ∃ w2 ev2, HandleWebSocket T Upgraded w0 = Ok (w2, ev2) ∧
              channels w2 !! T = Some {[next w0 := true]} ∧
              members_of w2 T = {[next w0]} ∧
              heap w2 !! next w0 = Some (mkClient (mkConn false) (make_chan 256) T))
    as Hnew.
  { intros w0 T HT Hnone. rewrite HandleWebSocket_accept by done.
    eexists _, _. split; [done|]. unfold members_of. simpl.
    rewrite !lookup_insert_eq, Hnone. simpl. rewrite insert_empty.
    split_and!; [done| |done]. by rewrite dom_singleton_L. }
  split_and!; [done| |].
  - intros c cl Hcl Hlast.
    assert (c ∈ members_of w (channelID cl)) as Hin by (rewrite Hlast; set_solver).
    destruct (inv_member_open _ _ _ Hinv Hin) as (cl' & Hcl' & _ & _ & Hopen).
    assert (cl' = cl) as -> by congruence.
    unfold members_of in Hin, Hlast.
    destruct (channels w !! channelID cl) as [clients|] eqn:HT; [|set_solver].
    apply elem_of_dom in Hin.
    rewrite (Unregister_member _ _ _ _ Hcl HT Hin Hopen).
    assert (size (delete c clients) = 0) as Hz by by apply size_delete_zero.
    eexists _, _. split; [done|].
    assert (channels_without c (channelID cl) clients (channels w) !! channelID cl = None)
      as Hgone.
    { by rewrite lookup_channels_without, !decide_True. }
    assert (c ≠ next w) as Hfresh.
    { intros ->. by rewrite (inv_next_fresh _ Hinv) in Hcl. }
    split_and!.
    + done.
    + unfold members_of. simpl. by rewrite Hgone.
    + intros m. unfold Broadcast. simpl. by rewrite Hgone.
    + simpl. rewrite lookup_insert_ne by done. by apply inv_next_fresh.
    + destruct (Hnew (set_heap (<[c := close_send cl]> (heap w))
                        (set_channels (channels_without c (channelID cl) clients (channels w)) w))
                     (channelID cl))
        as (w2 & ev2 & Hrun & Hset & Hmem & Hcl2);
        [by apply (reaches_bound _ _ _ _ Hreach c cl)|exact Hgone|].
      exists w2, ev2. simpl in *. split_and!; [done..| |done].
      rewrite Hmem. set_solver.
  - intros T HT Hempty. split; [by apply inv_next_fresh|].
    apply Hnew; [done|]. destruct (channels w !! T) eqn:Hsome; [|done].
    exfalso. apply (proj1 (Hentry T)); [by rewrite Hsome|done].
Qed.

(** C3, as the hub has it. In a reachable world a member of channel [T]
    is a client bound to [T], a member of no other channel, whose mailbox
    is open and whose inbound loop runs; it is [Active] while its outbound
    loop runs too and [Draining] once that loop has returned, and it is
    never [Closed]. *)
Theorem members_bound_and_registered (w : World) (tr : list Event)
    (T : string) (c : ptr) :
  reachable w tr → c ∈ members_of w T →
  ∃ cl, heap w !! c = Some cl ∧ channelID cl = T ∧
    (∀ T', c ∈ members_of w T' → T' = T) ∧
    closed (send cl) = false ∧ c ∈ readers w ∧
    phase w c = (if decide (c ∈ writers w) then Active else Draining).
Proof.
  intros Hinv%reaches_inv Hin.
  destruct (inv_member_open _ _ _ Hinv Hin) as (cl & Hcl & Hbound & Hrd & Hopen).
  exists cl. split_and!; [done..| |done|done|].
  - intros T' Hin'.
    destruct (inv_member_open _ _ _ Hinv Hin') as (cl' & Hcl' & Hbound' & _).
    congruence.
  - unfold phase. rewrite Hcl. rewrite (bool_decide_eq_true_2 _ Hrd). simpl.
    pose proof (inv_conn _ Hinv _ _ Hcl) as Hconn.
    destruct (decide (c ∈ writers w)) as [Hwr|Hnwr].
    + rewrite (bool_decide_eq_true_2 _ Hwr). simpl.
      destruct (conn_closed (conn cl)); [|done].
      destruct Hconn as [[?|?] _]; done.
    + by rewrite (bool_decide_eq_false_2 _ Hnwr).
Qed.

End Claims.

(** ** The properties on runs of the server *)

Section Runs.

Import Scenario.

Local Abbreviation U := SampleCodec.Unmarshal.
Local Abbreviation M := SampleCodec.Marshal.

Lemma run_from_start_reaches (inputs : list Input) (w : World) (tr : list Event) :
  run_from_start inputs = Ok (w, tr) → reaches U M w tr.
Proof.
  intros Hrun. change tr with ([] ++ tr).
  eapply run_reaches; [apply reaches_init|done].
Qed.

(** The stamped copy of alice's message, as the codec writes it. *)
Example hi_out_marshalled :
  M (stamp "general" noon hi_msg) = Some hi_out ∧ U hi = Some hi_msg.
Proof. by vm_compute. Qed.

(** With the mailbox of client [0] full and one free slot in that of
    client [1], a broadcast skips [0] and reaches [1]. *)
Example broadcast_to_full_mailbox :
  ∃ w', Broadcast "general" hi_out (world_of one_full)
          = Ok (w', [EvSend 1 hi_out; EvSkip 0 hi_out]) ∧
    length (pending (world_of one_full) 0) = 256 ∧
    pending w' 0 = pending (world_of one_full) 0 ∧
    pending w' 1 = pending (world_of one_full) 1 ++ [hi_out] ∧
    channels w' = channels (world_of one_full).
Proof. eexists. split; [by vm_compute|]. by vm_compute. Qed.

(** A broadcast to a channel without members does nothing. *)
Example broadcast_to_no_member :
  Broadcast "random" hi_out (world_of two_joined) = Ok (world_of two_joined, []).
Proof. by vm_compute. Qed.

(** Client [1], in another channel, sees nothing of what client [0]
    publishes in general. *)
Example other_channel_unreached :
  let inputs := [InConnect "general" Upgraded; InConnect "random" Upgraded;
                 InRead 0 (ReadMsg hi) noon] in
  pending (world_of inputs) 0 = [hi_out] ∧ pending (world_of inputs) 1 = [].
Proof. by vm_compute. Qed.

Lemma Broadcast_drops_only_when_full_witness :
  reaches U M (world_of one_full) (trace_of one_full) ∧
  ∃ w' order,
    Broadcast "general" hi_out (world_of one_full)
      = Ok (w', offer_event (heap (world_of one_full)) hi_out <$> order) ∧
    NoDup order ∧ (∀ c, c ∈ order ↔ c ∈ members_of (world_of one_full) "general") ∧
    channels w' = channels (world_of one_full) ∧
    ∀ c cl, heap (world_of one_full) !! c = Some cl →
      cap (send cl) = 256 ∧
      heap w' !! c =
        Some (if decide (c ∈ members_of (world_of one_full) "general"
                         ∧ length (buf (send cl)) < 256)
              then set_send (mkChan (buf (send cl) ++ [hi_out]) 256 false) cl
              else cl).
Proof.
  assert (reaches U M (world_of one_full) (trace_of one_full)) as Hreach.
  { apply (run_from_start_reaches one_full). vm_compute. reflexivity. }
  split; [exact Hreach|].
  exact (Broadcast_drops_only_when_full U M _ _ "general" hi_out Hreach).
Defined.

Lemma readPump_stamps_message_witness :
  heap (world_of two_joined) !! 0 = Some (mkClient (mkConn false) (make_chan 256) "general") ∧
  U spoof = Some spoof_msg ∧
  ∃ out,
    ChannelID out = "general" ∧ Type_ out = "message" ∧
    CreatedAt out = "not-a-date" ∧ Author out = "mallory" ∧ Content out = "psst" ∧
    readPump_iter U M 0 (ReadMsg spoof) noon (world_of two_joined) =
      match M out with
      | Some outMsg => Broadcast "general" outMsg (world_of two_joined)
      | None => Ok (world_of two_joined, [EvLog "Failed to marshal message"])
      end.
Proof.
  assert (heap (world_of two_joined) !! 0
          = Some (mkClient (mkConn false) (make_chan 256) "general")) as Hcl.
  { vm_compute. reflexivity. }
  assert (U spoof = Some spoof_msg) as Hraw.
  { vm_compute. reflexivity. }
  split; [exact Hcl|]. split; [exact Hraw|].
  exact (readPump_stamps_message U M _ 0 _ spoof noon spoof_msg Hcl Hraw).
Defined.

Lemma created_at_forwarded_verbatim_witness :
  heap (world_of two_joined) !! 0 = Some (mkClient (mkConn false) (make_chan 256) "general") ∧
  U spoof = Some spoof_msg ∧ CreatedAt spoof_msg ≠ "" ∧
  readPump_iter U M 0 (ReadMsg spoof) noon (world_of two_joined) =
    match M (mkWSMessage "message" "general" "mallory" "psst" "not-a-date") with
    | Some outMsg => Broadcast "general" outMsg (world_of two_joined)
    | None => Ok (world_of two_joined, [EvLog "Failed to marshal message"])
    end.
Proof.
  assert (heap (world_of two_joined) !! 0
          = Some (mkClient (mkConn false) (make_chan 256) "general")) as Hcl.
  { vm_compute. reflexivity. }
  assert (U spoof = Some spoof_msg) as Hraw.
  { vm_compute. reflexivity. }
  assert (CreatedAt spoof_msg ≠ "") as Hne.
  { simpl. discriminate. }
  split; [exact Hcl|]. split; [exact Hraw|]. split; [exact Hne|].
  exact (created_at_forwarded_verbatim U M _ 0 _ spoof noon spoof_msg Hcl Hraw Hne).
Defined.

Lemma invalid_payload_discarded_witness :
  reaches U M (world_of two_joined) (trace_of two_joined) ∧
  0 ∈ readers (world_of two_joined) ∧ U garbage = None ∧
  readPump_iter U M 0 (ReadMsg garbage) noon (world_of two_joined)
    = Ok (world_of two_joined, [EvLog "Invalid message format"]).
Proof.
  assert (reaches U M (world_of two_joined) (trace_of two_joined)) as Hreach.
  { apply (run_from_start_reaches two_joined). vm_compute. reflexivity. }
  assert (0 ∈ readers (world_of two_joined)) as Hrd.
  { vm_compute. reflexivity. }
  assert (U garbage = None) as Hraw.
  { vm_compute. reflexivity. }
  split; [exact Hreach|]. split; [exact Hrd|]. split; [exact Hraw|].
  exact (invalid_payload_discarded U M _ _ 0 garbage noon Hreach Hrd Hraw).
Defined.

(** Client [0] published alice's message and then the spoofed one; client
    [1] has written the first out and the second waits in its mailbox. *)
Example first_published_first_written :
  ∃ second, M (stamp "general" noon spoof_msg) = Some second ∧
    accepted 1 (trace_of two_published) = [hi_out; second] ∧
    dequeued 1 (trace_of two_published) = [hi_out] ∧
    pending (world_of two_published) 1 = [second].
Proof. eexists. split; [by vm_compute|]. by vm_compute. Qed.

Lemma mailbox_fifo_witness :
  let w := world_of two_waiting in
  let tr := trace_of two_waiting in
  reaches U M w tr ∧ pending w 1 = hi_out :: [spoof_out] ∧ 1 ∈ writers w ∧
  accepted 1 tr = dequeued 1 tr ++ pending w 1 ∧
  accepted 1 tr = [hi_out; spoof_out] ∧ dequeued 1 tr = [] ∧
  enabled w (InWrite 1 false) = true ∧
  ∃ w' ev,
    writePump_iter 1 true w = Ok (w', ev) ∧
    ev = [EvWrite 1 hi_out true] ∧
    pending w' 1 = [spoof_out] ∧
    dequeued 1 (tr ++ ev) = dequeued 1 tr ++ [hi_out] ∧
    accepted 1 (tr ++ ev) = accepted 1 tr ∧
    ∀ c', c' ≠ 1 → pending w' c' = pending w c'.
Proof.
  assert (reaches U M (world_of two_waiting) (trace_of two_waiting)) as Hreach.
  { apply (run_from_start_reaches two_waiting). vm_compute. reflexivity. }
  assert (pending (world_of two_waiting) 1 = hi_out :: [spoof_out]) as Hpending.
  { vm_compute. reflexivity. }
  assert (1 ∈ writers (world_of two_waiting)) as Hwr.
  { vm_compute. reflexivity. }
  destruct (mailbox_fifo U M _ _ 1 Hreach) as [Hfifo Hturn].
  destruct (Hturn hi_out [spoof_out] Hpending) as [Hen Hwrite].
  split; [exact Hreach|]. split; [exact Hpending|]. split; [exact Hwr|].
  split; [exact Hfifo|]. split; [vm_compute; reflexivity|].
  split; [vm_compute; reflexivity|]. split; [exact (Hen Hwr)|].
  exact (Hwrite true).
Defined.

(** The same turn with a write that fails: the head is taken out and
    handed to [WriteMessage] all the same, and the loop ends. *)
Example head_taken_when_write_fails :
  ∃ w', writePump_iter 1 false (world_of two_waiting)
          = Ok (w', [EvWrite 1 hi_out false; EvConnClose 1]) ∧
    pending w' 1 = [spoof_out] ∧ bool_decide (1 ∈ writers w') = false.
Proof. eexists. split; [by vm_compute|]. by vm_compute. Qed.

Lemma publisher_receives_own_message_witness :
  reaches U M (world_of two_joined) (trace_of two_joined) ∧
  0 ∈ readers (world_of two_joined) ∧ U hi = Some hi_msg ∧
  ∃ cl, heap (world_of two_joined) !! 0 = Some cl ∧
    0 ∈ members_of (world_of two_joined) (channelID cl) ∧
    ∀ outMsg, M (stamp (channelID cl) noon hi_msg) = Some outMsg →
      ∃ w' ev, readPump_iter U M 0 (ReadMsg hi) noon (world_of two_joined) = Ok (w', ev) ∧
        (length (pending (world_of two_joined) 0) < 256 →
           EvSend 0 outMsg ∈ ev ∧ pending w' 0 = pending (world_of two_joined) 0 ++ [outMsg]) ∧
        (256 ≤ length (pending (world_of two_joined) 0) →
           EvSkip 0 outMsg ∈ ev ∧ pending w' 0 = pending (world_of two_joined) 0).
Proof.
  assert (reaches U M (world_of two_joined) (trace_of two_joined)) as Hreach.
  { apply (run_from_start_reaches two_joined). vm_compute. reflexivity. }
  assert (0 ∈ readers (world_of two_joined)) as Hrd.
  { vm_compute. reflexivity. }
  assert (U hi = Some hi_msg) as Hraw.
  { vm_compute. reflexivity. }
  split; [exact Hreach|]. split; [exact Hrd|]. split; [exact Hraw|].
  exact (publisher_receives_own_message U M _ _ 0 hi noon hi_msg Hreach Hrd Hraw).
Defined.

(** Clients [0] and [1] are in general and alice's message arrives on
    [0]: the mailbox of [1] holds one payload, which decodes to the message
    with the channel, the type and the time filled in. *)
Example general_end_to_end :
  let w := world_of (two_joined ++ [InRead 0 (ReadMsg hi) noon]) in
  pending w 1 = [hi_out] ∧
  U hi_out = Some (mkWSMessage "message" "general" "alice" "hi" noon).
Proof. by vm_compute. Qed.

(** The publisher finds its own message in its mailbox. *)
Example publisher_echo :
  pending (world_of (two_joined ++ [InRead 0 (ReadMsg hi) noon])) 0 = [hi_out].
Proof. by vm_compute. Qed.

(** Client [0], alone in general, leaves: the entry of general goes, a
    second [Unregister] finds nothing to do, and the client that joins
    next is alone in a new member set. *)
Example last_member_leaves :
  let w := world_of one_joined in
  ∃ w1, Unregister 0 w
          = Ok (w1, [EvChanClose 0; EvLog "Client disconnected from channel general";
                     EvDeleteChannel "general"]) ∧
    channels w1 = ∅ ∧ Unregister 0 w1 = Ok (w1, []) ∧
    ∃ w2 ev, HandleWebSocket "general" Upgraded w1 = Ok (w2, ev) ∧
      channels w2 = {[ "general" := {[ 1 := true ]} ]}.
Proof.
  eexists. split; [by vm_compute|]. split; [by vm_compute|]. split; [by vm_compute|].
  eexists _, _. split; by vm_compute.
Qed.


Lemma channel_entry_iff_member_witness :
  let w := world_of one_joined in
  reaches U M w (trace_of one_joined) ∧
  heap w !! 0 = Some (mkClient (mkConn false) (make_chan 256) "general") ∧
  members_of w "general" = {[0]} ∧ members_of w "random" = ∅ ∧
  (∀ T, is_Some (channels w !! T) ↔ members_of w T ≠ ∅) ∧
  (∃ w1 ev1, Unregister 0 w = Ok (w1, ev1) ∧
     channels w1 !! "general" = None ∧
     members_of w1 "general" = ∅ ∧
     (∀ m, Broadcast "general" m w1 = Ok (w1, [])) ∧
     heap w1 !! next w1 = None ∧
     ∃ w2 ev2, HandleWebSocket "general" Upgraded w1 = Ok (w2, ev2) ∧
       channels w2 !! "general" = Some {[next w1 := true]} ∧
       members_of w2 "general" = {[next w1]} ∧
       (0 ∉ members_of w2 "general") ∧
       heap w2 !! next w1 = Some (mkClient (mkConn false) (make_chan 256) "general")) ∧
  (heap w !! next w = None ∧
   ∃ w2 ev2, HandleWebSocket "random" Upgraded w = Ok (w2, ev2) ∧
     channels w2 !! "random" = Some {[next w := true]} ∧
     members_of w2 "random" = {[next w]} ∧
     heap w2 !! next w = Some (mkClient (mkConn false) (make_chan 256) "random")).
Proof.
  assert (reaches U M (world_of one_joined) (trace_of one_joined)) as Hreach.
  { apply (run_from_start_reaches one_joined). vm_compute. reflexivity. }
  assert (heap (world_of one_joined) !! 0
          = Some (mkClient (mkConn false) (make_chan 256) "general")) as Hcl.
  { vm_compute. reflexivity. }
  assert (members_of (world_of one_joined) "general" = {[0]}) as Hlast.
  { vm_compute. reflexivity. }
  assert (members_of (world_of one_joined) "random" = ∅) as Hempty.
  { vm_compute. reflexivity. }
  assert ("random" ≠ "") as Hne.
  { discriminate. }
  destruct (channel_entry_iff_member U M _ _ Hreach) as (Hentry & Hleave & Hjoin).
  split; [exact Hreach|]. split; [exact Hcl|]. split; [exact Hlast|].
  split; [exact Hempty|]. split; [exact Hentry|].
  split; [exact (Hleave 0 _ Hcl Hlast)|]. exact (Hjoin "random" Hne Hempty).
Defined.

(** A request without a channel is answered 400 by the handler; a request
    with a channel whose handshake fails is answered by the upgrader, and
    the handler only logs; neither leaves a trace in the world. *)
Example no_channel_answered_by_handler :
  HandleWebSocket "" Upgraded (world_of one_joined)
    = Ok (world_of one_joined, [EvHttpError 400 "channel parameter required"]).
Proof. by vm_compute. Qed.

Example bad_handshake_answered_by_upgrader :
  HandleWebSocket "general" bad_handshake (world_of one_joined)
    = Ok (world_of one_joined,
          [EvHttpError 400 "Bad Request"; EvLog "WebSocket upgrade error"]).
Proof. by vm_compute. Qed.

Lemma members_bound_and_registered_witness :
  let w := world_of write_failed in
  reaches U M w (trace_of write_failed) ∧ 0 ∈ members_of w "general" ∧
  ∃ cl, heap w !! 0 = Some cl ∧ channelID cl = "general" ∧
    (∀ T', 0 ∈ members_of w T' → T' = "general") ∧
    closed (send cl) = false ∧ 0 ∈ readers w ∧
    phase w 0 = (if decide (0 ∈ writers w) then Active else Draining).
Proof.
  assert (reaches U M (world_of write_failed) (trace_of write_failed)) as Hreach.
  { apply (run_from_start_reaches write_failed). vm_compute. reflexivity. }
  assert (0 ∈ members_of (world_of write_failed) "general") as Hin.
  { vm_compute. reflexivity. }
  split; [exact Hreach|]. split; [exact Hin|].
  exact (members_bound_and_registered U M _ _ "general" 0 Hreach Hin).
Defined.

(** C3, as stated, fails: after a failed write the outbound loop of client
    [0] has returned and closed the transport, and the client is still a
    member of general until its inbound loop sees the read fail. *)
Lemma member_with_closed_transport :
  ¬ (∀ (w : World) (tr : list Event) (T : string) (c : ptr),
       reaches U M w tr → c ∈ members_of w T →
       (∃ cl, heap w !! c = Some cl ∧ channelID cl = T) ∧ phase w c = Active).
Proof.
  intros Hclaim.
  destruct (Hclaim (world_of write_failed) (trace_of write_failed) "general" 0)
    as [_ Hphase].
  - apply (run_from_start_reaches write_failed). vm_compute. reflexivity.
  - vm_compute. reflexivity.
  - vm_compute in Hphase. discriminate.
Qed.

(** In that world the transport of client [0] is closed and its outbound
    loop is gone, while its inbound loop still runs. *)
Example write_failed_world :
  let w := world_of write_failed in
  transport_closed w 0 = true ∧ bool_decide (0 ∈ writers w) = false ∧
  bool_decide (0 ∈ readers w) = true ∧ bool_decide (0 ∈ members_of w "general") = true ∧
  phase w 0 = Draining.
Proof. by vm_compute. Qed.

End Runs.

(** ** Further properties of the hub *)

Lemma closes_of_app (c : ptr) (tr1 tr2 : list Event) :
  closes_of c (tr1 ++ tr2) = closes_of c tr1 + closes_of c tr2.
Proof.
  induction tr1 as [|e tr1 IH]; [done|].
  destruct e; simpl; try done. case_decide; simpl; by rewrite IH.
Qed.

Lemma closes_of_offer (hp : gmap ptr Client) (m : payload) (c : ptr) (order : list ptr) :
  closes_of c (offer_event hp m <$> order) = 0.
Proof.
  induction order as [|c' order IH]; [done|]. simpl. unfold offer_event at 1.
  destruct (hp !! c') as [cl|]; [destruct (room cl)|]; done.
Qed.

Lemma EvSend_offer_inv (hp : gmap ptr Client) (m m' : payload) (c : ptr) (order : list ptr) :
  EvSend c m' ∈ (offer_event hp m <$> order) → c ∈ order.
Proof.
  intros (c' & Heq & Hin)%list_elem_of_fmap. unfold offer_event in Heq.
  destruct (hp !! c') as [cl|]; [destruct (room cl)|]; by simplify_eq.
Qed.

Section HubExtras.

Context (json_Unmarshal : payload → option WSMessage).
Context (json_Marshal : WSMessage → option payload).

Local Abbreviation reachable := (reaches json_Unmarshal json_Marshal).
Local Abbreviation readPump_turn := (readPump_iter json_Unmarshal json_Marshal).
Local Abbreviation turn := (step json_Unmarshal json_Marshal).

(** X1. Whatever the clients and the transport do, the server does not
    panic: from [NewWSHandler()] every sequence of turns runs to a world,
    so that no send ever meets a closed mailbox, no mailbox is closed
    twice and no pump works on a client that does not exist. *)
Theorem server_never_panics (inputs : list Input) :
  ∃ w tr, run json_Unmarshal json_Marshal inputs NewHub = Ok (w, tr) ∧ reachable w tr.
Proof.
  assert (∀ w0 tr0, reachable w0 tr0 →
    ∃ w tr, run json_Unmarshal json_Marshal inputs w0 = Ok (w, tr) ∧
            reachable w (tr0 ++ tr)) as Hgen.
  { induction inputs as [|i inputs IH]; intros w0 tr0 Hreach; simpl.
    - eexists _, _. split; [done|]. by rewrite app_nil_r.
    - destruct (enabled w0 i) eqn:Hen; [|by apply IH].
      pose proof (reaches_inv _ _ _ _ Hreach) as Hinv.
      destruct (step_inv json_Unmarshal json_Marshal w0 i Hinv Hen)
        as (w1 & ev1 & Hstep & _).
      rewrite Hstep. simpl.
      destruct (IH w1 (tr0 ++ ev1)) as (w2 & ev2 & Hrun & Hreach2).
      { by eapply reaches_step. }
      rewrite Hrun. simpl. eexists _, _. split; [done|]. by rewrite app_assoc. }
  destruct (Hgen NewHub []) as (w & tr & Hrun & Hreach); [apply reaches_init|].
  by exists w, tr.
Qed.


(** X3. What a client publishes stays in its channel: a turn of its
    inbound loop on a message leaves every client bound to another channel
    exactly as it was and sends it nothing, whatever channel the message
    itself names. *)
Theorem publish_stays_in_channel (w w' : World) (tr ev : list Event) (c : ptr)
    (cl : Client) (raw : payload) (now : string) :
  reachable w tr → heap w !! c = Some cl →
  readPump_turn c (ReadMsg raw) now w = Ok (w', ev) →
  ∀ c' cl', heap w !! c' = Some cl' → channelID cl' ≠ channelID cl →
    heap w' !! c' = Some cl' ∧ ∀ m, EvSend c' m ∉ ev.
Proof.
  intros Hinv%reaches_inv Hcl Hturn c' cl' Hcl' Hother.
  unfold readPump_iter, deref in Hturn. rewrite Hcl in Hturn. simpl in Hturn.
  destruct (json_Unmarshal raw) as [msg|].
  2:{ injection Hturn as <- <-. split; [done|]. intros m. set_solver. }
  destruct (json_Marshal _) as [outMsg|].
  2:{ injection Hturn as <- <-. split; [done|]. intros m. set_solver. }
  destruct (Broadcast_spec w (channelID cl) outMsg Hinv) as (hp & Hspec & Hhp).
  rewrite Hspec in Hturn. injection Hturn as <- <-.
  assert (c' ∉ members_of w (channelID cl)) as Hnin.
  { intros Hin. destruct (inv_member_open _ _ _ Hinv Hin) as (cl0 & Hcl0 & Hb & _).
    congruence. }
  split.
  - simpl. by rewrite Hhp, decide_False.
  - intros m Hin%EvSend_offer_inv. by apply Hnin, elem_of_range_order_members.
Qed.

(** X4. A failed read ends the connection: the turn takes the client out
    of its channel, closes its mailbox (what waits in it stays) and its
    transport and ends its inbound loop; the entry of the channel goes
    exactly when the client was its last member; every other client keeps
    its record and its memberships. *)
Theorem read_error_unregisters (w : World) (tr : list Event) (c : ptr)
    (unexpected : bool) (now : string) :
  reachable w tr → c ∈ readers w →
  ∃ w' ev cl,
    readPump_turn c (ReadErr unexpected) now w = Ok (w', ev) ∧
    heap w !! c = Some cl ∧
    heap w' !! c = Some (mkClient (mkConn true) (mkChan (buf (send cl)) 256 true)
                                  (channelID cl)) ∧
    (∀ T, c ∉ members_of w' T) ∧ (c ∉ readers w') ∧ (writers w' = writers w) ∧
    (is_Some (channels w' !! channelID cl) ↔ members_of w (channelID cl) ≠ {[c]}) ∧
    ∀ c', c' ≠ c →
      heap w' !! c' = heap w !! c' ∧
      (c' ∈ readers w' ↔ c' ∈ readers w) ∧
      ∀ T, c' ∈ members_of w' T ↔ c' ∈ members_of w T.
Proof.
  intros Hinv%reaches_inv Hrd.
  destruct (inv_reader_open _ _ Hinv Hrd) as (cl & clients & Hcl & HT & Hc & Hopen).
  destruct (inv_chan _ Hinv _ _ Hcl) as (Hcap & _ & _).
  unfold readPump_iter, deref, readPump_exit. rewrite Hcl. simpl.
  rewrite (Unregister_member _ _ _ _ Hcl HT Hc Hopen). simpl.
  eexists _, _, cl. split; [done|]. split; [done|]. simpl.
  assert (∀ c' T, c' ∈ members_of
            (set_readers (readers w ∖ {[c]})
               (conn_Close c (set_heap (<[c:=close_send cl]> (heap w))
                  (set_channels (channels_without c (channelID cl) clients (channels w)) w)))) T
          ↔ c' ≠ c ∧ c' ∈ members_of w T) as Hmem.
  { intros c' T. unfold members_of. simpl. rewrite lookup_channels_without.
    destruct (decide (channelID cl = T)) as [<-|HTT].
    - rewrite HT. destruct (decide (size (delete c clients) = 0)) as [Hz|Hnz].
      + apply size_delete_zero in Hz; [|done]. rewrite Hz. set_solver.
      + rewrite dom_delete_L. set_solver.
    - destruct (channels w !! T) as [clients'|] eqn:HT'; [|set_solver].
      split; [|by intros [_ ?]]. intros Hin. split; [|done]. intros ->.
      apply elem_of_dom in Hin.
      destruct (inv_member _ Hinv _ _ _ HT' Hin) as (cl0 & Hcl0 & Hb & _).
      congruence. }
  split_and!.
  - rewrite lookup_alter_eq, lookup_insert_eq. unfold close_send, set_conn, set_send.
    simpl. by rewrite Hcap.
  - intros T [? _]%Hmem. done.
  - set_solver.
  - done.
  - rewrite lookup_channels_without, decide_True by done. unfold members_of.
    rewrite HT. pose proof (size_delete_zero clients c Hc) as Hsz.
    destruct (decide (size (delete c clients) = 0)) as [Hz|Hnz].
    + split; [by intros []|]. intros Hne. exfalso. by apply Hne, Hsz.
    + split; [|by eexists]. intros _ Hdom. by apply Hnz, Hsz.
  - intros c' Hne. split_and!.
    + by rewrite lookup_alter_ne, lookup_insert_ne.
    + set_solver.
    + intros T. rewrite Hmem. naive_solver.
Qed.

(** X5. Once the inbound loop of a client has ended, its outbound loop is
    never left waiting and its next turn is its last: it finds the mailbox
    closed, or the write on the closed transport fails, and it returns;
    the connection is then [Closed]. *)
Theorem outbound_loop_ends_after_inbound (w : World) (tr : list Event) (c : ptr) :
  reachable w tr → c ∈ writers w → c ∉ readers w →
  enabled w (InWrite c false) = true ∧
  ∀ write_ok w' ev,
    enabled w (InWrite c write_ok) = true →
    writePump_iter c write_ok w = Ok (w', ev) →
    (c ∉ writers w') ∧ phase w' c = Closed.
Proof.
  intros Hinv%reaches_inv Hwr Hnrd.
  destruct (inv_writer _ Hinv _ Hwr) as [cl Hcl].
  destruct (inv_chan _ Hinv _ _ Hcl) as (_ & _ & Hclosed).
  assert (closed (send cl) = true) as Hcl_closed by by apply Hclosed.
  assert (conn_closed (conn cl) = true) as Hconn.
  { apply (inv_conn _ Hinv _ _ Hcl). by left. }
  assert (∀ w0, heap w0 !! c = Some cl → readers w0 = readers w →
            phase (set_writers (writers w0 ∖ {[c]}) (conn_Close c w0)) c = Closed) as Hph.
  { intros w0 Hcl0 Hrd0. unfold phase. simpl. rewrite lookup_alter_eq, Hcl0. simpl.
    rewrite Hrd0, (bool_decide_eq_false_2 _ Hnrd). simpl.
    rewrite bool_decide_eq_false_2; [done|set_solver]. }
  split.
  - simpl. rewrite (bool_decide_eq_true_2 _ Hwr), Hcl. simpl. unfold chan_recv.
    destruct (buf (send cl)); [by rewrite Hcl_closed|done].
  - intros write_ok w' ev Hen Hturn. simpl in Hen.
    rewrite (bool_decide_eq_true_2 _ Hwr), Hcl in Hen. simpl in Hen.
    unfold writePump_iter, deref in Hturn. rewrite Hcl in Hturn. simpl in Hturn.
    unfold chan_recv in *. destruct (buf (send cl)) as [|m rest] eqn:Hbuf.
    + rewrite Hcl_closed in Hturn. injection Hturn as <- <-.
      split; [simpl; set_solver|]. by apply Hph.
    + rewrite Hconn in Hen. destruct write_ok; [done|].
      injection Hturn as <- <-. split; [simpl; set_solver|].
      unfold phase. simpl. rewrite lookup_alter_eq, lookup_insert_eq. simpl.
      rewrite (bool_decide_eq_false_2 _ Hnrd). simpl.
      rewrite bool_decide_eq_false_2; [done|set_solver].
Qed.

(** The number of times the mailbox of [c] must have been closed, read off
    the world: once if the client exists and its inbound loop has ended. *)
Lemma step_closes (w w' : World) (i : Input) (ev : list Event) (c : ptr) :
  inv w → enabled w i = true → turn w i = Ok (w', ev) →
  (if decide (is_Some (heap w !! c) ∧ c ∉ readers w) then 1 else 0) + closes_of c ev
  = (if decide (is_Some (heap w' !! c) ∧ c ∉ readers w') then 1 else 0).
Proof.
  intros Hinv Hen Hstep. destruct i as [channel upgrade|c0 rd now|c0 write_ok]; simpl in *.
  - destruct (decide (channel = "")) as [->|Hne].
    { injection Hstep as <- <-. simpl. lia. }
    destruct upgrade as [|reply]; cycle 1.
    { rewrite HandleWebSocket_refuse in Hstep by done. injection Hstep as <- <-.
      destruct reply as [[status body]|]; simpl; lia. }
    rewrite HandleWebSocket_accept in Hstep by done. injection Hstep as <- <-.
    simpl. rewrite Nat.add_0_r. pose proof (inv_next_fresh _ Hinv) as Hfresh.
    destruct (decide (next w = c)) as [<-|Hc].
    + rewrite !decide_False; [done|set_solver|]. rewrite Hfresh. by intros [[] _].
    + apply decide_ext. rewrite lookup_insert_ne by done. set_solver.
  - assert (c0 ∈ readers w) as Hrd.
    { by apply bool_decide_eq_true in Hen. }
    destruct (inv_reader_open _ _ Hinv Hrd) as (cl & clients & Hcl & HT & Hc0 & Hopen).
    unfold readPump_iter, deref in Hstep. rewrite Hcl in Hstep. simpl in Hstep.
    destruct rd as [unexpected|raw].
    + unfold readPump_exit in Hstep.
      rewrite (Unregister_member _ _ _ _ Hcl HT Hc0 Hopen) in Hstep. simpl in Hstep.
      injection Hstep as <- <-.
      assert (∀ pre post : list Event, closes_of c pre = 0 → closes_of c post = 0 →
                closes_of c (pre ++ EvChanClose c0
                  :: EvLog ("Client disconnected from channel " +:+ channelID cl)
                  :: post ++ [EvConnClose c0])
                = if decide (c0 = c) then 1 else 0) as Hcount.
      { intros pre post Hpre Hpost. rewrite closes_of_app, Hpre. simpl.
        rewrite closes_of_app, Hpost. simpl. by destruct (decide (c0 = c)). }
      rewrite Hcount; [|by destruct unexpected
                       |by destruct (decide (size (delete c0 clients) = 0))].
      simpl.
      destruct (decide (c0 = c)) as [<-|Hne].
      * rewrite decide_False by (intros [_ ?]; done).
        rewrite decide_True; [done|]. rewrite lookup_alter_eq, lookup_insert_eq.
        split; [by eexists|set_solver].
      * rewrite Nat.add_0_r. apply decide_ext.
        rewrite lookup_alter_ne, lookup_insert_ne by done. set_solver.
    + destruct (json_Unmarshal raw) as [msg|].
      2:{ injection Hstep as <- <-. simpl. lia. }
      destruct (json_Marshal _) as [outMsg|].
      2:{ injection Hstep as <- <-. simpl. lia. }
      destruct (Broadcast_spec w (channelID cl) outMsg Hinv) as (hp & Hspec & Hhp).
      rewrite Hspec in Hstep. injection Hstep as <- <-.
      rewrite closes_of_offer, Nat.add_0_r. apply decide_ext. simpl. rewrite Hhp.
      destruct (decide (c ∈ members_of w (channelID cl))); [|done].
      by rewrite fmap_is_Some.
  - apply andb_true_iff in Hen as [Hwr Hen]. apply bool_decide_eq_true in Hwr.
    destruct (inv_writer _ Hinv _ Hwr) as [cl Hcl].
    unfold writePump_iter, deref in Hstep. rewrite Hcl in Hstep. simpl in Hstep.
    unfold chan_recv in Hstep. destruct (buf (send cl)) as [|m rest] eqn:Hbuf.
    + destruct (closed (send cl)); injection Hstep as <- <-; simpl;
        rewrite Nat.add_0_r; [|done].
      apply decide_ext. by rewrite lookup_alter_is_Some.
    + destruct write_ok; injection Hstep as <- <-; simpl; rewrite Nat.add_0_r;
        apply decide_ext.
      * rewrite lookup_insert_is_Some'. split; [naive_solver|].
        intros [[->|?] ?]; split; try done.
      * rewrite lookup_alter_is_Some, lookup_insert_is_Some'. split; [naive_solver|].
        intros [[->|?] ?]; split; try done.
Qed.

(** X6. Over a whole run the mailbox of a client is closed at most once:
    not at all while its inbound loop runs, and exactly once when that
    loop has ended. *)
Theorem mailbox_closed_once (w : World) (tr : list Event) (c : ptr) :
  reachable w tr →
  closes_of c tr = if decide (is_Some (heap w !! c) ∧ c ∉ readers w) then 1 else 0.
Proof.
  induction 1 as [|w tr i w' ev Hreach IH Hen Hstep].
  - simpl. rewrite decide_False; [done|]. rewrite lookup_empty. by intros [[] _].
  - pose proof (reaches_inv _ _ _ _ Hreach) as Hinv.
    rewrite closes_of_app, IH. by eapply step_closes.
Qed.

(** X7. A connection that is accepted gets a new client and nothing else
    changes: the client is at an address that was free, bound to the
    requested channel and a member of that channel only, its mailbox empty
    and open with capacity 256, both its pumps running; every client that
    was there keeps its record and its memberships. *)
Theorem HandleWebSocket_registers_new_client (w : World) (tr : list Event)
    (channel : string) :
  reachable w tr → channel ≠ "" →
  ∃ w' ev,
    HandleWebSocket channel Upgraded w = Ok (w', ev) ∧
    heap w !! next w = None ∧
    heap w' !! next w = Some (mkClient (mkConn false) (mkChan [] 256 false) channel) ∧
    (∀ T, next w ∈ members_of w' T ↔ T = channel) ∧
    phase w' (next w) = Active ∧
    ∀ c', c' ≠ next w →
      heap w' !! c' = heap w !! c' ∧
      (c' ∈ readers w' ↔ c' ∈ readers w) ∧ (c' ∈ writers w' ↔ c' ∈ writers w) ∧
      ∀ T, c' ∈ members_of w' T ↔ c' ∈ members_of w T.
Proof.
  intros Hinv%reaches_inv Hne.
  rewrite HandleWebSocket_accept by done. eexists _, _. split; [done|].
  pose proof (inv_next_fresh _ Hinv) as Hfresh.
  assert (∀ T, next w ∉ members_of w T) as Hnew.
  { intros T Hin. destruct (inv_member_open _ _ _ Hinv Hin) as (cl & Hcl & _).
    congruence. }
  assert (∀ c' T, c' ∈ members_of
            (mkWorld (<[channel := <[next w := true]> (default ∅ (channels w !! channel))]>
                        (channels w))
                     (<[next w := mkClient (mkConn false) (make_chan 256) channel]> (heap w))
                     (S (next w)) ({[next w]} ∪ readers w) ({[next w]} ∪ writers w)) T
          ↔ (c' = next w ∧ T = channel) ∨ c' ∈ members_of w T) as Hmem.
  { intros c' T. unfold members_of. simpl. rewrite lookup_insert.
    destruct (decide (channel = T)) as [<-|HT].
    - rewrite dom_insert_L. destruct (channels w !! channel); simpl; set_solver.
    - destruct (channels w !! T); set_solver. }
  split_and!.
  - done.
  - simpl. by rewrite lookup_insert_eq.
  - intros T. rewrite Hmem. specialize (Hnew T). naive_solver.
  - unfold phase. simpl. rewrite lookup_insert_eq. simpl.
    rewrite !bool_decide_eq_true_2; [done|set_solver..].
  - intros c' Hc'. simpl. split_and!.
    + by rewrite lookup_insert_ne.
    + set_solver.
    + set_solver.
    + intros T. rewrite Hmem. naive_solver.
Qed.

End HubExtras.

(** ** Properties of the REST API *)

Module APIFacts.

Import API.

Local Open Scope Z_scope.

(** *** Numbers and strings *)

Lemma wrap_id (z : Z) : minInt ≤ z ≤ maxInt → wrap z = z.
Proof.
  unfold wrap, minInt, maxInt. intros Hz.
  rewrite Z.mod_small; lia.
Qed.

Lemma wrap_range (z : Z) : minInt ≤ wrap z ≤ maxInt.
Proof.
  unfold wrap, minInt, maxInt.
  pose proof (Z.mod_pos_bound (z + 2 ^ 63) (2 ^ 64)). lia.
Qed.

Lemma Itoa_parses (z : Z) :
  DecimalString.NilZero.int_of_string (Itoa z) = Some (Z.to_int z).
Proof.
  unfold Itoa. apply DecimalString.NilZero.isi; destruct z; simpl; try done.
  - intros [= H]. by apply DecimalPos.Unsigned.to_uint_nonnil in H.
  - intros [= H]. by apply DecimalPos.Unsigned.to_uint_nonnil in H.
Qed.

Lemma Itoa_inj (z z' : Z) : Itoa z = Itoa z' → z = z'.
Proof.
  intros Heq. apply DecimalZ.to_int_inj.
  pose proof (Itoa_parses z) as Hz. rewrite Heq, Itoa_parses in Hz. congruence.
Qed.

Lemma digits_head (d : Decimal.uint) :
  d ≠ Decimal.Nil →
  ∃ a s, DecimalString.NilEmpty.string_of_uint d = String a s ∧
         Ascii.eqb a plus_sign = false ∧ Ascii.eqb a minus_sign = false.
Proof. destruct d; [done|..]; intros _; eexists _, _; by split. Qed.

Lemma digits_free_of_slash (d : Decimal.uint) :
  has_char slash (DecimalString.NilEmpty.string_of_uint d) = false.
Proof. induction d; simpl; [done|..]; by rewrite IHd. Qed.

Lemma Itoa_free_of_slash (z : Z) : has_char slash (Itoa z) = false.
Proof.
  unfold Itoa. destruct z as [|p|p]; simpl; [done|..].
  - unfold DecimalString.NilZero.string_of_uint.
    destruct (Pos.to_uint p); try done; apply digits_free_of_slash.
  - unfold DecimalString.NilZero.string_of_uint.
    destruct (Pos.to_uint p); try done; apply digits_free_of_slash.
Qed.

Lemma Itoa_nonempty (z : Z) : Itoa z ≠ "".
Proof.
  intros Heq. pose proof (Itoa_parses z) as Hz. by rewrite Heq in Hz.
Qed.

(** [Atoi] reads back what [Itoa] writes. *)
Lemma string_of_uint_nonnil (d : Decimal.uint) :
  d ≠ Decimal.Nil →
  DecimalString.NilZero.string_of_uint d = DecimalString.NilEmpty.string_of_uint d.
Proof. by destruct d. Qed.

Lemma Atoi_Itoa (z : Z) : minInt ≤ z ≤ maxInt → Atoi (Itoa z) = Some z.
Proof.
  intros Hz. unfold Itoa. destruct z as [|p|p]; simpl.
  - done.
  - pose proof (DecimalPos.Unsigned.to_uint_nonnil p) as Hnil.
    pose proof (DecimalPos.Unsigned.of_to p) as Hback.
    rewrite string_of_uint_nonnil by done.
    destruct (digits_head _ Hnil) as (a & s & Hs & Hplus & Hminus).
    rewrite Hs. unfold Atoi. rewrite Hplus, Hminus.
    unfold DecimalString.NilZero.uint_of_string.
    rewrite <- Hs, DecimalString.NilEmpty.usu. simpl.
    unfold Z.of_uint. rewrite Hback. simpl. unfold in_int.
    by rewrite bool_decide_eq_true_2.
  - pose proof (DecimalPos.Unsigned.to_uint_nonnil p) as Hnil.
    pose proof (DecimalPos.Unsigned.of_to p) as Hback.
    unfold Atoi.
    rewrite DecimalString.NilZero.usu by done. simpl.
    unfold Z.of_uint. rewrite Hback. simpl. unfold in_int.
    by rewrite bool_decide_eq_true_2.
Qed.

Lemma substring_all (s : string) : String.substring 0 (String.length s) s = s.
Proof. induction s as [|a s IH]; simpl; [done|]. by rewrite IH. Qed.

Lemma prefix_app (p s : string) : String.prefix p (p +:+ s) = true.
Proof.
  induction p as [|a p IH]; simpl; [by destruct s|].
  destruct (Ascii.ascii_dec a a); [done|done].
Qed.

Lemma TrimPrefix_app (p s : string) : TrimPrefix (p +:+ s) p = s.
Proof.
  unfold TrimPrefix. rewrite prefix_app.
  induction p as [|a p IH]; simpl.
  - rewrite Nat.sub_0_r. apply substring_all.
  - apply IH.
Qed.

Lemma Split_nonempty (s : string) (c : Ascii.ascii) : Split s c ≠ [].
Proof.
  destruct s as [|a s]; simpl; [done|].
  destruct (Ascii.eqb a c); [done|]. by destruct (Split s c).
Qed.

Lemma Split_free (s : string) (c : Ascii.ascii) :
  has_char c s = false → Split s c = [s].
Proof.
  induction s as [|a s IH]; simpl; [done|].
  intros [Ha Hs]%orb_false_iff. by rewrite Ha, IH.
Qed.

Lemma Split_sep_two (s : string) (c : Ascii.ascii) :
  has_char c s = true → ∃ p q ps, Split s c = p :: q :: ps.
Proof.
  induction s as [|a s IH]; simpl; [done|].
  destruct (Ascii.eqb a c); simpl.
  - intros _. pose proof (Split_nonempty s c).
    destruct (Split s c) as [|q ps]; [done|]. by eexists _, _, _.
  - intros (p & q & ps & ->)%IH. by eexists _, _, _.
Qed.

Lemma Split_app_sep (s x : string) (c : Ascii.ascii) :
  has_char c s = false → Split (s +:+ String c x) c = s :: Split x c.
Proof.
  induction s as [|a s IH]; simpl.
  - intros _. by rewrite Ascii.eqb_refl.
  - intros [Ha Hs]%orb_false_iff. by rewrite Ha, IH.
Qed.

Lemma wrap_le (z : Z) : 0 ≤ z → wrap z ≤ z.
Proof.
  intros Hz. unfold wrap.
  pose proof (Z.mod_le (z + 2 ^ 63) (2 ^ 64)). lia.
Qed.

Lemma Atoi_range (s : string) (z : Z) : Atoi s = Some z → minInt ≤ z ≤ maxInt.
Proof.
  assert (∀ x, in_int x = Some z → minInt ≤ z ≤ maxInt) as Hin.
  { intros x. unfold in_int. case_bool_decide; by intros [= <-]. }
  unfold Atoi. destruct s as [|a s]; [done|].
  destruct (Ascii.eqb a plus_sign); [|destruct (Ascii.eqb a minus_sign)];
    (destruct (DecimalString.NilZero.uint_of_string _); [|done]); apply Hin.
Qed.

Lemma page_of_range (p : string) : 1 ≤ page_of p ≤ maxInt.
Proof.
  unfold page_of. case_decide; [by unfold maxInt|].
  destruct (Atoi p) as [z|] eqn:Hz; [|by unfold maxInt].
  apply Atoi_range in Hz. case_bool_decide; [lia|by unfold maxInt].
Qed.

Lemma limit_of_range (l : string) : 1 ≤ limit_of l ≤ 100.
Proof.
  unfold limit_of. case_decide; [done|].
  destruct (Atoi l) as [z|]; [|done]. case_bool_decide; [lia|done].
Qed.

Lemma page_of_Itoa (k : Z) : 1 ≤ k ≤ maxInt → page_of (Itoa k) = k.
Proof.
  intros Hk. unfold page_of. rewrite decide_False by apply Itoa_nonempty.
  rewrite Atoi_Itoa by (unfold minInt, maxInt in *; lia).
  rewrite bool_decide_eq_true_2; [done|lia].
Qed.

Lemma limit_of_Itoa (k : Z) : 1 ≤ k ≤ 100 → limit_of (Itoa k) = k.
Proof.
  intros Hk. unfold limit_of. rewrite decide_False by apply Itoa_nonempty.
  rewrite Atoi_Itoa by (unfold minInt, maxInt; lia).
  rewrite bool_decide_eq_true_2; [done|lia].
Qed.

(** *** Pages of messages *)

Lemma getMessages_fit (a : API) (r : Request) (id : string) (ch : Channel) :
  channels a !! id = Some ch →
  page_of (Query_Get r "page") * limit_of (Query_Get r "limit") ≤ maxInt →
  getMessages a r id =
    Ok (a, mkResponse 200
             (JSONPage (mkPaginatedMessages
                (take (Z.to_nat (limit_of (Query_Get r "limit")))
                   (drop (Z.to_nat ((page_of (Query_Get r "page") - 1)
                                    * limit_of (Query_Get r "limit")))
                      (default [] (messages a !! id))))
                (page_of (Query_Get r "page")) (limit_of (Query_Get r "limit"))
                (Z.of_nat (length (default [] (messages a !! id))))))).
Proof.
  intros Hch Hfit. unfold getMessages. rewrite Hch.
  pose proof (page_of_range (Query_Get r "page")) as Hpage.
  pose proof (limit_of_range (Query_Get r "limit")) as Hlimit.
  set (page := page_of _) in *. set (limit := limit_of _) in *.
  set (msgs := default [] _).
  assert (0 ≤ (page - 1) * limit) as Hstart0 by nia.
  assert ((page - 1) * limit + limit ≤ maxInt) as Hend by nia.
  rewrite (wrap_id (page - 1)) by (unfold minInt, maxInt in *; lia).
  rewrite (wrap_id ((page - 1) * limit)) by (unfold minInt, maxInt in *; lia).
  rewrite (wrap_id ((page - 1) * limit + limit)) by (unfold minInt, maxInt in *; lia).
  set (start := (page - 1) * limit) in *.
  case_bool_decide as Hpast.
  - do 5 f_equal. rewrite drop_ge by lia. by rewrite take_nil.
  - unfold slice.
    destruct (decide (Z.of_nat (length msgs) < start + limit)) as [Hlong|Hshort].
    + rewrite !(bool_decide_eq_true_2 (Z.of_nat (length msgs) < start + limit)) by done.
      rewrite bool_decide_eq_true_2 by lia. simpl. do 5 f_equal.
      rewrite !take_ge; [done|rewrite length_drop; lia..].
    + rewrite !(bool_decide_eq_false_2 (Z.of_nat (length msgs) < start + limit)) by done.
      rewrite bool_decide_eq_true_2 by lia. simpl. do 6 f_equal. lia.
Qed.

(** X9. While the index arithmetic stays within [int], [getMessages]
    answers 200 with the messages of the channel from position
    [(page - 1) * limit] on, at most [limit] of them, in the order they
    were sent, together with the page, the page size and the number of
    messages of the channel; a page past the end is the empty list. The
    state is left as it was. *)
Theorem getMessages_page (a : API) (r : Request) (id : string) (ch : Channel) :
  channels a !! id = Some ch →
  page_of (Query_Get r "page") * limit_of (Query_Get r "limit") ≤ maxInt →
  getMessages a r id =
    Ok (a, mkResponse 200
             (JSONPage (mkPaginatedMessages
                (take (Z.to_nat (limit_of (Query_Get r "limit")))
                   (drop (Z.to_nat ((page_of (Query_Get r "page") - 1)
                                    * limit_of (Query_Get r "limit")))
                      (default [] (messages a !! id))))
                (page_of (Query_Get r "page")) (limit_of (Query_Get r "limit"))
                (Z.of_nat (length (default [] (messages a !! id))))))).
Proof.
  intros Hch Hfit. by rewrite (getMessages_fit a r id ch Hch Hfit).
Qed.

(** X10. Whatever the parameters, a page that [getMessages] answers
    carries a page number of at least 1, a page size from 1 to 100 and at
    most that many messages, all of them messages of the channel in their
    order, and the number of messages of the channel as the total; a page
    size that is not a number from 1 to 100 counts as 20. *)
Theorem getMessages_bounds (a a' : API) (r : Request) (id : string) (resp : Response)
    (p : PaginatedMessages) :
  getMessages a r id = Ok (a', resp) → Written resp = JSONPage p →
  a' = a ∧ Status resp = 200 ∧
  1 ≤ Page p ∧ 1 ≤ Limit p ≤ 100 ∧
  Z.of_nat (length (Messages p)) ≤ Limit p ∧
  Messages p `sublist_of` default [] (messages a !! id) ∧
  Total p = Z.of_nat (length (default [] (messages a !! id))) ∧
  (∀ n, Atoi (Query_Get r "limit") = Some n → ¬ (1 ≤ n ≤ 100) → Limit p = 20).
Proof.
  unfold getMessages. destruct (channels a !! id) as [ch|]; [|by intros [= <- <-]].
  pose proof (page_of_range (Query_Get r "page")) as Hpage.
  pose proof (limit_of_range (Query_Get r "limit")) as Hlimit.
  assert (∀ n, Atoi (Query_Get r "limit") = Some n → ¬ (1 ≤ n ≤ 100) →
               limit_of (Query_Get r "limit") = 20) as Hfallback.
  { intros n Hn Hout. unfold limit_of. case_decide; [done|]. rewrite Hn.
    rewrite bool_decide_eq_false_2; [done|lia]. }
  set (page := page_of _) in *. set (limit := limit_of _) in *.
  set (msgs := default [] _). set (start := wrap (wrap (page - 1) * limit)).
  case_bool_decide as Hpast.
  - intros [= <- <-] [= <-]. simpl. split_and!; try done; try lia.
    apply sublist_nil_l.
  - unfold slice. case_bool_decide as Hbounds; [|done]. simpl.
    intros [= <- <-] [= <-]. simpl. split_and!; try done; try lia.
    + rewrite length_take, length_drop.
      assert (wrap (start + limit) ≤ start + limit) by (apply wrap_le; lia).
      case_bool_decide; lia.
    + etrans; [apply sublist_take|apply sublist_drop].
Qed.

Lemma concat_pages {A : Type} (l : list A) (L n : nat) :
  concat ((λ k, take L (drop (k * L)%nat l)) <$> seq 0 n) = take (n * L)%nat l.
Proof.
  induction n as [|n IH]; [done|].
  rewrite seq_S, fmap_app, concat_app, IH. simpl. rewrite app_nil_r.
  rewrite take_take_drop. f_equal. lia.
Qed.

(** X11. The pages of a channel, asked for one after the other with one
    page size, are the messages of the channel cut into consecutive
    pieces, as long as the offsets stay within [int], that is, for the
    first [n] pages with [n * limit] at most [maxInt]: these pages
    together are the first [n * limit] messages, nothing left out, nothing
    twice; with enough pages they are all the messages.  (Beyond that
    bound the offset wraps around and a page can repeat an earlier
    one.) *)
Theorem pages_partition_messages (a : API) (path id : string) (ch : Channel)
    (msgs : list Message) (limit : Z) (n : nat) :
  channels a !! id = Some ch → messages a !! id = Some msgs →
  1 ≤ limit ≤ 100 → Z.of_nat n * limit ≤ maxInt →
  concat ((λ k : nat, messages_of (getMessages a (page_request path (Z.of_nat k + 1) limit) id))
            <$> seq 0 n)
  = take (n * Z.to_nat limit)%nat msgs ∧
  ((length msgs ≤ n * Z.to_nat limit)%nat →
   concat ((λ k : nat, messages_of (getMessages a (page_request path (Z.of_nat k + 1) limit) id))
             <$> seq 0 n) = msgs).
Proof.
  intros Hch Hmsgs Hlimit Hfit.
  assert (concat ((λ k : nat,
              messages_of (getMessages a (page_request path (Z.of_nat k + 1) limit) id))
            <$> seq 0 n) = take (n * Z.to_nat limit)%nat msgs) as Hcat.
  { rewrite <- concat_pages. f_equal. apply list_fmap_ext.
    intros i k Hk. apply lookup_seq in Hk as [-> Hlt]. simpl.
    assert (Query_Get (page_request path (Z.of_nat i + 1) limit) "page"
            = Itoa (Z.of_nat i + 1)) as Hp by done.
    assert (Query_Get (page_request path (Z.of_nat i + 1) limit) "limit" = Itoa limit)
      as Hl by done.
    assert (1 ≤ Z.of_nat i + 1 ≤ maxInt) as Hi by (unfold maxInt in *; nia).
    rewrite (getMessages_fit a _ id ch Hch); rewrite Hp, Hl, page_of_Itoa, limit_of_Itoa;
      try done; [|nia].
    simpl. rewrite Hmsgs. simpl. do 2 f_equal. nia. }
  split; [done|]. intros Hall. rewrite Hcat. by apply take_ge.
Qed.

(** X12. When the page number is so large that [(page - 1) * limit] wraps
    around to a negative [int], [getMessages] of an existing channel does
    not answer: the slice expression panics. *)
Theorem getMessages_overflow_panics (a : API) (r : Request) (id : string) (ch : Channel) :
  channels a !! id = Some ch →
  wrap (wrap (page_of (Query_Get r "page") - 1) * limit_of (Query_Get r "limit")) < 0 →
  getMessages a r id = Panic "slice bounds out of range".
Proof.
  intros Hch Hneg. unfold getMessages. rewrite Hch.
  rewrite bool_decide_eq_false_2 by lia. unfold slice.
  by rewrite bool_decide_eq_false_2 by lia.
Qed.

(** *** The handlers *)

Lemma getMessages_state (a a' : API) (r : Request) (id : string) (resp : Response) :
  getMessages a r id = Ok (a', resp) → a' = a ∧ Status resp ≠ StatusCreated.
Proof.
  unfold getMessages. destruct (channels a !! id); [|by intros [= <- <-]].
  case_bool_decide; [by intros [= <- <-]|].
  destruct (slice _ _ _); [|done]. by intros [= <- <-].
Qed.

Lemma decide_channel_cases (decode_channel : payload → option CreateChannelRequest)
    (r : Request) :
  (decode_channel (Body r) = None ∨
   ∃ req, decode_channel (Body r) = Some req ∧ Req_Name req = "") ∨
  ∃ req, decode_channel (Body r) = Some req ∧ Req_Name req ≠ "".
Proof.
  destruct (decode_channel (Body r)) as [req|]; [|by left; left].
  destruct (decide (Req_Name req = "")); [left; right|right]; by exists req.
Qed.

Section Handlers.

Context (decode_channel : payload → option CreateChannelRequest).
Context (decode_message : payload → option CreateMessageRequest).

Local Abbreviation createChannel := (createChannel decode_channel).
Local Abbreviation sendMessage := (sendMessage decode_message).
Local Abbreviation handleChannels := (handleChannels decode_channel).
Local Abbreviation handleChannelByID := (handleChannelByID decode_message).
Local Abbreviation serve := (serve decode_channel decode_message).

Lemma route_to_channel (a : API) (r : Request) (now : Time) (id : string) :
  id ≠ "" → has_char slash id = false → URL_Path r = "/api/channels/" +:+ id →
  handleChannelByID a r now =
    if decide (Method r = "GET") then Ok (getChannel a id)
    else Ok (a, mkResponse 405 (Text "Method not allowed")).
Proof.
  intros Hid Hfree. unfold API.handleChannelByID. intros ->.
  rewrite TrimPrefix_app, Split_free by done. by rewrite decide_False by done.
Qed.

Lemma route_to_messages (a : API) (r : Request) (now : Time) (id : string) :
  id ≠ "" → has_char slash id = false →
  URL_Path r = "/api/channels/" +:+ id +:+ "/messages" →
  handleChannelByID a r now =
    if decide (Method r = "GET") then getMessages a r id
    else if decide (Method r = "POST") then Ok (sendMessage a r id now)
    else Ok (a, mkResponse 405 (Text "Method not allowed")).
Proof.
  intros Hid Hfree. unfold API.handleChannelByID. intros ->. rewrite TrimPrefix_app.
  change (id +:+ "/messages") with (id +:+ String slash "messages").
  rewrite Split_app_sep by done. simpl. by rewrite decide_False by done.
Qed.

(** X13. [handleChannelByID] takes the path apart as follows, for a
    channel id that is not empty and holds no slash: the id alone goes to
    [getChannel] on GET and is 405 otherwise; the id followed by
    [/messages] goes to [getMessages] on GET, to [sendMessage] on POST and
    is 405 otherwise; the id followed by a slash and anything else, also
    nothing, is 404; and without an id the answer is 400. *)
Theorem handleChannelByID_routes (a : API) (r : Request) (now : Time) (id : string) :
  id ≠ "" → has_char slash id = false →
  (URL_Path r = "/api/channels/" +:+ id →
   handleChannelByID a r now =
     if decide (Method r = "GET") then Ok (getChannel a id)
     else Ok (a, mkResponse 405 (Text "Method not allowed"))) ∧
  (URL_Path r = "/api/channels/" +:+ id +:+ "/messages" →
   handleChannelByID a r now =
     if decide (Method r = "GET") then getMessages a r id
     else if decide (Method r = "POST") then Ok (sendMessage a r id now)
     else Ok (a, mkResponse 405 (Text "Method not allowed"))) ∧
  (∀ x, x ≠ "messages" → URL_Path r = "/api/channels/" +:+ id +:+ String slash x →
   handleChannelByID a r now = Ok (a, mkResponse 404 (Text "Not found"))) ∧
  (∀ x, URL_Path r = "/api/channels/" ∨ URL_Path r = "/api/channels/" +:+ String slash x →
   handleChannelByID a r now = Ok (a, mkResponse 400 (Text "Channel ID required"))).
Proof.
  intros Hid Hfree. split_and!.
  - by apply route_to_channel.
  - by apply route_to_messages.
  - unfold API.handleChannelByID. intros x Hx ->. rewrite TrimPrefix_app, Split_app_sep by done.
    rewrite decide_False by done.
    destruct (Split x slash) as [|second [|third rest]] eqn:Hsplit.
    + by apply Split_nonempty in Hsplit.
    + rewrite decide_False; [done|]. intros ->.
      destruct (has_char slash x) eqn:Hfx.
      * apply Split_sep_two in Hfx as (p & q & ps & Hpq). congruence.
      * rewrite Split_free in Hsplit by done. congruence.
    + done.
  - unfold API.handleChannelByID. intros x [->| ->].
    + change "/api/channels/" with ("/api/channels/" +:+ "") at 1.
      by rewrite TrimPrefix_app.
    + by rewrite TrimPrefix_app.
Qed.

(** X14. Only a request that is answered 201 changes the state: a call
    that is not a POST, and a call answered with an error, leave the
    channels, the messages and both counters as they were. *)
Theorem state_changes_only_on_created (a a' : API) (c : Call) (resp : Response) :
  serve a c = Ok (a', resp) →
  (Status resp ≠ 201 → a' = a) ∧ (Method (request_of c) ≠ "POST" → a' = a).
Proof.
  destruct c as [r now|r now]; simpl.
  - unfold API.handleChannels, listChannels, API.createChannel.
    destruct (decide (Method r = "GET")) as [Hget|_].
    { intros [= <- <-]. done. }
    destruct (decide (Method r = "POST")) as [Hpost|_]; [|by intros [= <- <-]].
    destruct (decide_channel_cases decode_channel r) as [[Hd|(req & Hd & Hn)]|(req & Hd & Hn)];
      rewrite Hd; [|rewrite decide_True by done|rewrite decide_False by done];
      intros [= <- <-]; by split.
  - unfold API.handleChannelByID.
    destruct (Split _ slash) as [|id rest]; [by intros [= <- <-]|].
    destruct (decide (id = "")); [by intros [= <- <-]|].
    destruct rest as [|second [|third rest]]; [|..|by intros [= <- <-]].
    + unfold getChannel. destruct (decide (Method r = "GET")); [|by intros [= <- <-]].
      destruct (channels a !! id); by intros [= <- <-].
    + destruct (decide (second = "messages")); [|by intros [= <- <-]].
      destruct (decide (Method r = "GET")) as [Hget|_].
      { intros [-> Hst]%getMessages_state. split; [done|]. done. }
      destruct (decide (Method r = "POST")) as [Hpost|_]; [|by intros [= <- <-]].
      unfold API.sendMessage.
      destruct (decode_message (Body r)) as [req|]; [|by intros [= <- <-]].
      destruct (decide (Req_Content req = "")); [by intros [= <- <-]|].
      destruct (decide (Req_Author req = "")); [by intros [= <- <-]|].
      destruct (channels a !! id); intros [= <- <-]; by split.
Qed.

Lemma api_inv_NewAPI : api_inv NewAPI.
Proof.
  constructor; simpl.
  - unfold maxInt. lia.
  - by rewrite !dom_empty_L.
  - intros id ch. by rewrite lookup_empty.
  - intros id msgs i m. by rewrite lookup_empty.
  - intros id id' msgs msgs' i i' m m'. by rewrite lookup_empty.
Qed.

Lemma createChannel_created (a : API) (r : Request) (now : Time)
    (req : CreateChannelRequest) :
  0 ≤ channelSeq a < maxInt →
  decode_channel (Body r) = Some req → Req_Name req ≠ "" →
  createChannel a r now =
    (mkAPI (<[Itoa (channelSeq a + 1) := mkChannel (Itoa (channelSeq a + 1)) (Req_Name req) now]>
              (channels a))
           (<[Itoa (channelSeq a + 1) := []]> (messages a))
           (channelSeq a + 1) (messageSeq a),
     mkResponse 201 (JSONChannel (mkChannel (Itoa (channelSeq a + 1)) (Req_Name req) now))).
Proof.
  intros Hseq Hreq Hname. unfold API.createChannel. rewrite Hreq, decide_False by done.
  simpl. by rewrite wrap_id by (unfold minInt, maxInt in *; lia).
Qed.

Lemma sendMessage_created (a : API) (r : Request) (id : string) (now : Time)
    (req : CreateMessageRequest) (ch : Channel) :
  0 ≤ messageSeq a < maxInt →
  decode_message (Body r) = Some req → Req_Content req ≠ "" → Req_Author req ≠ "" →
  channels a !! id = Some ch →
  sendMessage a r id now =
    (mkAPI (channels a)
           (<[id := default [] (messages a !! id)
                    ++ [mkMessage (Itoa (messageSeq a + 1)) id (Req_Content req)
                                  (Req_Author req) now]]> (messages a))
           (channelSeq a) (messageSeq a + 1),
     mkResponse 201 (JSONMessage (mkMessage (Itoa (messageSeq a + 1)) id (Req_Content req)
                                            (Req_Author req) now))).
Proof.
  intros Hseq Hreq Hcontent Hauthor Hch. unfold API.sendMessage.
  rewrite Hreq, !decide_False, Hch by done.
  simpl. by rewrite wrap_id by (unfold minInt, maxInt in *; lia).
Qed.

Lemma createChannel_inv (a : API) (r : Request) (now : Time) :
  api_inv a → channelSeq a < maxInt →
  api_inv (createChannel a r now).1 ∧
  channelSeq (createChannel a r now).1 ≤ channelSeq a + 1 ∧
  messageSeq (createChannel a r now).1 = messageSeq a.
Proof.
  intros Hinv Hroom. destruct (inv_seq _ Hinv) as [Hcs Hms].
  destruct (decide_channel_cases decode_channel r)
    as [[Hd|(req & Hd & Hn)]|(req & Hd & Hn)].
  - unfold API.createChannel. rewrite Hd. simpl. split_and!; [done|lia|done].
  - unfold API.createChannel. rewrite Hd, decide_True by done. simpl.
    split_and!; [done|lia|done].
  - rewrite (createChannel_created a r now req) by (try done; lia). simpl.
    split_and!; [|lia|done].
    set (id := Itoa (channelSeq a + 1)).
    constructor; simpl.
    + lia.
    + rewrite !dom_insert_L. by rewrite (inv_lists _ Hinv).
    + intros id' ch. rewrite lookup_insert. case_decide as Hid; subst.
      * intros [= <-]. split; [done|]. exists (channelSeq a + 1). split; [lia|done].
      * intros Hch. destruct (inv_channel _ Hinv _ _ Hch) as (? & k & ? & ?).
        split; [done|]. exists k. split; [lia|done].
    + intros id' msgs i m. rewrite lookup_insert. case_decide as Hid; subst.
      * by intros [= <-].
      * apply (inv_message _ Hinv).
    + intros id1 id2 msgs1 msgs2 i1 i2 m1 m2. rewrite !lookup_insert.
      case_decide; [by intros [= <-]|]. intros H1 Hm1.
      case_decide; [by intros [= <-]|]. intros H2 Hm2.
      by eapply (inv_message_ids _ Hinv).
Qed.

Lemma sendMessage_inv (a : API) (r : Request) (id : string) (now : Time) :
  api_inv a → messageSeq a < maxInt →
  api_inv (sendMessage a r id now).1 ∧
  channelSeq (sendMessage a r id now).1 = channelSeq a ∧
  messageSeq (sendMessage a r id now).1 ≤ messageSeq a + 1.
Proof.
  intros Hinv Hroom. destruct (inv_seq _ Hinv) as [Hcs Hms].
  unfold API.sendMessage.
  destruct (decode_message (Body r)) as [req|]; [|simpl; split_and!; [done..|lia]].
  destruct (decide (Req_Content req = "")); [simpl; split_and!; [done..|lia]|].
  destruct (decide (Req_Author req = "")); [simpl; split_and!; [done..|lia]|].
  destruct (channels a !! id) as [ch|] eqn:Hch; [|simpl; split_and!; [done..|lia]]. simpl.
  rewrite wrap_id by (unfold minInt, maxInt in *; lia).
  split_and!; [|done|lia].
  set (m := mkMessage _ _ _ _ _). set (old := default [] (messages a !! id)).
  assert (∀ id' msgs (i : nat) m0,
            <[id := old ++ [m]]> (messages a) !! id' = Some msgs → msgs !! i = Some m0 →
            (messages a !! id' = Some (if decide (id = id') then old else msgs) ∧
             (if decide (id = id') then old else msgs) !! i = Some m0) ∨
            (id' = id ∧ i = length old ∧ m0 = m)) as Hcases.
  { intros id' msgs i m0. rewrite lookup_insert.
    destruct (decide (id = id')) as [<-|Hne]; [|by left].
    intros [= <-] Hi. apply lookup_app_Some in Hi as [Hi|[Hlen Hi]].
    - left. split; [|done]. unfold old in *.
      destruct (messages a !! id); [done|]. simpl in Hi. by rewrite lookup_nil in Hi.
    - right. apply list_lookup_singleton_Some in Hi as [Hi <-].
      split_and!; [done| |done]. lia. }
  constructor; simpl.
  - lia.
  - rewrite dom_insert_L, (inv_lists _ Hinv).
    assert (id ∈ dom (channels a)) by by apply elem_of_dom.
    set_solver.
  - apply (inv_channel _ Hinv).
  - intros id' msgs i m0 Hl Hi.
    destruct (Hcases _ _ _ _ Hl Hi) as [[Hl0 Hi0]|(-> & -> & ->)].
    + destruct (inv_message _ Hinv _ _ _ _ Hl0 Hi0) as (? & k & ? & ?).
      split; [done|]. exists k. split; [lia|done].
    + split; [done|]. exists (messageSeq a + 1). split; [lia|done].
  - intros id1 id2 msgs1 msgs2 i1 i2 m1 m2 Hl1 Hi1 Hl2 Hi2 Heq.
    destruct (Hcases _ _ _ _ Hl1 Hi1) as [[Hl10 Hi10]|(-> & -> & ->)];
      destruct (Hcases _ _ _ _ Hl2 Hi2) as [[Hl20 Hi20]|(-> & -> & ->)].
    + by eapply (inv_message_ids _ Hinv).
    + destruct (inv_message _ Hinv _ _ _ _ Hl10 Hi10) as (_ & k & Hk & Hid1).
      rewrite Hid1 in Heq. simpl in Heq. apply Itoa_inj in Heq. lia.
    + destruct (inv_message _ Hinv _ _ _ _ Hl20 Hi20) as (_ & k & Hk & Hid2).
      rewrite Hid2 in Heq. simpl in Heq. apply Itoa_inj in Heq. lia.
    + done.
Qed.

Lemma serve_inv (a a' : API) (c : Call) (resp : Response) :
  api_inv a → channelSeq a < maxInt → messageSeq a < maxInt →
  serve a c = Ok (a', resp) →
  api_inv a' ∧ channelSeq a' ≤ channelSeq a + 1 ∧ messageSeq a' ≤ messageSeq a + 1.
Proof.
  intros Hinv Hcs Hms.
  assert (api_inv a ∧ channelSeq a ≤ channelSeq a + 1 ∧ messageSeq a ≤ messageSeq a + 1)
    as Hsame by (split_and!; [done|lia..]).
  destruct c as [r now|r now]; simpl.
  - unfold API.handleChannels, listChannels.
    destruct (decide (Method r = "GET")); [by intros [= <- <-]|].
    destruct (decide (Method r = "POST")); [|by intros [= <- <-]].
    intros [= Heq]. destruct (createChannel_inv a r now Hinv Hcs) as (Hinv' & Hc & Hm).
    destruct (createChannel a r now) as [a1 resp1]. simplify_eq. simpl in *.
    split_and!; [done..|lia].
  - unfold API.handleChannelByID.
    destruct (Split _ slash) as [|id rest]; [by intros [= <- <-]|].
    destruct (decide (id = "")); [by intros [= <- <-]|].
    destruct rest as [|second [|third rest]]; [|..|by intros [= <- <-]].
    + unfold getChannel. destruct (decide (Method r = "GET")); [|by intros [= <- <-]].
      destruct (channels a !! id); by intros [= <- <-].
    + destruct (decide (second = "messages")); [|by intros [= <- <-]].
      destruct (decide (Method r = "GET")).
      { by intros [-> _]%getMessages_state. }
      destruct (decide (Method r = "POST")); [|by intros [= <- <-]].
      intros [= Heq]. destruct (sendMessage_inv a r id now Hinv Hms) as (Hinv' & Hc & Hm).
      destruct (sendMessage a r id now) as [a1 resp1]. simplify_eq. simpl in *.
      split_and!; [done| |done]. lia.
Qed.

Lemma serve_all_inv (cs : list Call) :
  ∀ (a a' : API) (resps : list Response),
    api_inv a →
    channelSeq a + Z.of_nat (length cs) ≤ maxInt →
    messageSeq a + Z.of_nat (length cs) ≤ maxInt →
    serve_all decode_channel decode_message a cs = Ok (a', resps) → api_inv a'.
Proof.
  induction cs as [|c cs IH]; intros a a' resps Hinv Hcs Hms; simpl.
  - by intros [= <- <-].
  - destruct (serve a c) as [[a1 resp]|] eqn:Hserve; [|done]. simpl.
    destruct (serve_all _ _ a1 cs) as [[a2 resps2]|] eqn:Hrest; [|done]. simpl.
    intros [= <- <-].
    destruct (serve_inv a a1 c resp) as (Hinv1 & Hc1 & Hm1); [done|simpl in *; lia..|done|].
    eapply IH; [done| | |done]; simpl in *; lia.
Qed.

(** X15. The handlers keep the state in order: after any calls from
    [NewAPI()] that were all answered, fewer than 2^63 of them, every
    channel has its list of messages and every list its channel, a channel
    is stored under its own ID and that ID is the decimal of a number from
    1 to [channelSeq], a message is in the list of the channel it names,
    and no two stored messages have the same ID. *)
Theorem reached_states_in_order (cs : list Call) (a : API) (resps : list Response) :
  Z.of_nat (length cs) ≤ maxInt →
  serve_all decode_channel decode_message NewAPI cs = Ok (a, resps) → api_inv a.
Proof.
  intros Hlen Hrun.
  assert (channelSeq NewAPI + Z.of_nat (length cs) ≤ maxInt) as Hcs by (simpl; lia).
  assert (messageSeq NewAPI + Z.of_nat (length cs) ≤ maxInt) as Hms by (simpl; lia).
  exact (serve_all_inv cs NewAPI a resps api_inv_NewAPI Hcs Hms Hrun).
Qed.

Lemma serve_cases (a a' : API) (c : Call) (resp : Response) :
  serve a c = Ok (a', resp) →
  a' = a ∨ (∃ r now, a' = (createChannel a r now).1) ∨
  (∃ r id now, a' = (sendMessage a r id now).1).
Proof.
  destruct c as [r now|r now]; simpl.
  - unfold API.handleChannels, listChannels.
    destruct (decide (Method r = "GET")); [intros [= <- <-]; by left|].
    destruct (decide (Method r = "POST")); [|intros [= <- <-]; by left].
    intros [= Heq]. right; left. exists r, now. by rewrite Heq.
  - unfold API.handleChannelByID.
    destruct (Split _ slash) as [|id rest]; [intros [= <- <-]; by left|].
    destruct (decide (id = "")); [intros [= <- <-]; by left|].
    destruct rest as [|second [|third rest]]; [|..|intros [= <- <-]; by left].
    + unfold getChannel. destruct (decide (Method r = "GET")); [|intros [= <- <-]; by left].
      destruct (channels a !! id); intros [= <- <-]; by left.
    + destruct (decide (second = "messages")); [|intros [= <- <-]; by left].
      destruct (decide (Method r = "GET")).
      { intros [-> _]%getMessages_state. by left. }
      destruct (decide (Method r = "POST")); [|intros [= <- <-]; by left].
      intros [= Heq]. right; right. exists r, id, now. by rewrite Heq.
Qed.

Lemma createChannel_increasing (a : API) (r : Request) (now : Time) :
  ids_increasing a → ids_increasing (createChannel a r now).1.
Proof.
  intros Hinc. unfold API.createChannel.
  destruct (decode_channel (Body r)) as [req|]; [|done].
  destruct (decide (Req_Name req = "")); [done|]. simpl.
  intros id msgs i j mi mj ki kj. simpl. rewrite lookup_insert.
  case_decide; [by intros [= <-]|]. apply Hinc.
Qed.

Lemma sendMessage_increasing (a : API) (r : Request) (id : string) (now : Time) :
  api_inv a → messageSeq a < maxInt → ids_increasing a →
  ids_increasing (sendMessage a r id now).1.
Proof.
  intros Hinv Hroom Hinc. destruct (inv_seq _ Hinv) as [_ Hms].
  unfold API.sendMessage.
  destruct (decode_message (Body r)) as [req|]; [|done].
  destruct (decide (Req_Content req = "")); [done|].
  destruct (decide (Req_Author req = "")); [done|].
  destruct (channels a !! id) as [ch|] eqn:Hch; [|done]. simpl.
  rewrite wrap_id by (unfold minInt, maxInt in *; lia).
  intros id' msgs i j mi mj ki kj. simpl. rewrite lookup_insert.
  destruct (decide (id = id')) as [<-|Hne]; [|apply Hinc].
  intros [= <-] Hi Hj Hlt Hki Hkj.
  destruct (messages a !! id) as [old|] eqn:Hold; simpl in *.
  - apply lookup_app_Some in Hi as [Hi|[Hleni Hi]];
      apply lookup_app_Some in Hj as [Hj|[Hlenj Hj]].
    + by eapply (Hinc id old i j).
    + apply list_lookup_singleton_Some in Hj as [_ <-]. simpl in Hkj.
      apply Itoa_inj in Hkj.
      destruct (inv_message _ Hinv _ _ _ _ Hold Hi) as (_ & k & Hk & Hidk).
      rewrite Hidk in Hki. apply Itoa_inj in Hki. lia.
    + apply lookup_lt_Some in Hj. lia.
    + apply list_lookup_singleton_Some in Hi as [Hi _].
      apply list_lookup_singleton_Some in Hj as [Hj _]. lia.
  - destruct i as [|i]; [|by destruct i]. destruct j as [|j]; [lia|by destruct j].
Qed.

(** X19. Within a channel the stored messages are in the order of their
    IDs: after any calls from [NewAPI()] that were all answered, fewer
    than 2^63 of them, a message that comes earlier in the list of its
    channel has the smaller ID number, so that the pages show the messages
    in the order they were sent. *)
Theorem reached_ids_increasing (cs : list Call) (a : API) (resps : list Response) :
  Z.of_nat (length cs) ≤ maxInt →
  serve_all decode_channel decode_message NewAPI cs = Ok (a, resps) →
  ids_increasing a.
Proof.
  intros Hlen Hrun.
  assert (∀ cs a0 a1 resps,
            api_inv a0 → ids_increasing a0 →
            channelSeq a0 + Z.of_nat (length cs) ≤ maxInt →
            messageSeq a0 + Z.of_nat (length cs) ≤ maxInt →
            serve_all decode_channel decode_message a0 cs = Ok (a1, resps) →
            ids_increasing a1) as Hgen.
  { clear. induction cs as [|c cs IH]; intros a0 a1 resps Hinv Hinc Hcs Hms; simpl.
    - by intros [= <- <-].
    - destruct (serve a0 c) as [[a2 resp]|] eqn:Hserve; [|done]. simpl.
      destruct (serve_all _ _ a2 cs) as [[a3 resps3]|] eqn:Hrest; [|done]. simpl.
      intros [= <- <-].
      destruct (serve_inv a0 a2 c resp) as (Hinv2 & Hc2 & Hm2);
        [done|simpl in *; lia..|done|].
      eapply (IH a2); [done| |simpl in *; lia..|done].
      destruct (serve_cases _ _ _ _ Hserve) as [->|[(r & now & ->)|(r & id & now & ->)]].
      + done.
      + by apply createChannel_increasing.
      + apply sendMessage_increasing; [done|simpl in *; lia|done]. }
  apply (Hgen cs NewAPI a resps); [apply api_inv_NewAPI| |simpl; lia..|done].
  intros id msgs i j mi mj ki kj. simpl. by rewrite lookup_empty.
Qed.

(** X16. A channel that is created is new and can be fetched: a POST with
    a name answers 201 with a channel whose ID is the decimal of the next
    sequence number, an ID no channel had before; the channels and
    message lists that were there stay as they were, the new channel
    starts with an empty list of messages, and a GET of
    [/api/channels/<ID>] afterwards answers 200 with that same channel. *)
Theorem created_channel_is_new_and_found (a : API) (r : Request) (now : Time)
    (req : CreateChannelRequest) :
  api_inv a → channelSeq a < maxInt →
  Method r = "POST" → decode_channel (Body r) = Some req → Req_Name req ≠ "" →
  ∃ a' ch,
    handleChannels a r now = Ok (a', mkResponse 201 (JSONChannel ch)) ∧
    ch = mkChannel (Itoa (channelSeq a + 1)) (Req_Name req) now ∧
    channels a !! Channel_ID ch = None ∧
    channels a' !! Channel_ID ch = Some ch ∧
    messages a' !! Channel_ID ch = Some [] ∧
    (∀ id, id ≠ Channel_ID ch →
       channels a' !! id = channels a !! id ∧ messages a' !! id = messages a !! id) ∧
    ∀ r' now', Method r' = "GET" → URL_Path r' = "/api/channels/" +:+ Channel_ID ch →
      handleChannelByID a' r' now' = Ok (a', mkResponse 200 (JSONChannel ch)).
Proof.
  intros Hinv Hroom Hpost Hreq Hname. destruct (inv_seq _ Hinv) as [Hcs _].
  unfold API.handleChannels. rewrite Hpost. simpl.
  rewrite (createChannel_created a r now req) by (try done; lia).
  eexists _, _. split; [done|]. split; [done|]. simpl. split_and!.
  - destruct (channels a !! Itoa (channelSeq a + 1)) as [ch0|] eqn:Hch0; [|done].
    destruct (inv_channel _ Hinv _ _ Hch0) as (_ & k & Hk & Heq).
    apply Itoa_inj in Heq. lia.
  - by rewrite lookup_insert_eq.
  - by rewrite lookup_insert_eq.
  - intros id Hid. by rewrite !lookup_insert_ne.
  - intros r' now' Hget Hpath.
    rewrite (route_to_channel _ r' now' (Itoa (channelSeq a + 1)));
      [|apply Itoa_nonempty|apply Itoa_free_of_slash|done].
    rewrite decide_True by done.
    unfold getChannel. simpl. by rewrite lookup_insert_eq.
Qed.

(** X17. A message that is sent goes to the end of the list of its
    channel and nowhere else: a POST to [/api/channels/<id>/messages] of
    an existing channel, with content and author, answers 201 with a
    message that carries the channel of the path, the content and the
    author of the body and an ID no stored message has; the list of the
    channel is the old list with the message after it, and the channels
    and the other lists stay as they were. *)
Theorem sent_message_is_appended (a : API) (r : Request) (now : Time) (id : string)
    (ch : Channel) (req : CreateMessageRequest) :
  api_inv a → messageSeq a < maxInt →
  Method r = "POST" → URL_Path r = "/api/channels/" +:+ id +:+ "/messages" →
  channels a !! id = Some ch →
  decode_message (Body r) = Some req → Req_Content req ≠ "" → Req_Author req ≠ "" →
  ∃ a' old m,
    handleChannelByID a r now = Ok (a', mkResponse 201 (JSONMessage m)) ∧
    m = mkMessage (Itoa (messageSeq a + 1)) id (Req_Content req) (Req_Author req) now ∧
    messages a !! id = Some old ∧
    messages a' !! id = Some (old ++ [m]) ∧
    channels a' = channels a ∧
    (∀ id', id' ≠ id → messages a' !! id' = messages a !! id') ∧
    (∀ id' msgs m', messages a !! id' = Some msgs → m' ∈ msgs →
       Message_ID m' ≠ Message_ID m).
Proof.
  intros Hinv Hroom Hpost Hpath Hch Hreq Hcontent Hauthor.
  destruct (inv_seq _ Hinv) as [_ Hms].
  destruct (inv_channel _ Hinv _ _ Hch) as (_ & k & _ & Hid).
  rewrite (route_to_messages a r now id);
    [|rewrite Hid; apply Itoa_nonempty|rewrite Hid; apply Itoa_free_of_slash|done].
  rewrite Hpost. simpl.
  rewrite (sendMessage_created a r id now req ch) by (try done; lia).
  assert (is_Some (messages a !! id)) as [old Hold].
  { apply elem_of_dom. rewrite (inv_lists _ Hinv). by apply elem_of_dom. }
  eexists _, old, _. split; [done|]. split; [done|]. simpl. split_and!.
  - done.
  - by rewrite lookup_insert_eq, Hold.
  - done.
  - intros id' Hne. by rewrite lookup_insert_ne.
  - intros id' msgs m' Hmsgs [i Hi]%list_elem_of_lookup Heq.
    destruct (inv_message _ Hinv _ _ _ _ Hmsgs Hi) as (_ & k' & Hk' & Hid').
    rewrite Hid' in Heq. apply Itoa_inj in Heq. lia.
Qed.

(** X18. GET [/api/channels] lists the channels, each one once and no
    other: the answer is 200 with as many channels as are stored, a
    channel is in the list exactly when it is stored under its ID, and the
    state is left as it was. *)
Theorem listed_channels_are_the_stored (a : API) (r : Request) (now : Time) :
  api_inv a → Method r = "GET" →
  ∃ listed,
    handleChannels a r now = Ok (a, mkResponse 200 (JSONChannels listed)) ∧
    length listed = size (channels a) ∧ NoDup listed ∧
    ∀ ch, ch ∈ listed ↔ channels a !! Channel_ID ch = Some ch.
Proof.
  intros Hinv Hget. unfold API.handleChannels, listChannels. rewrite Hget. simpl.
  eexists. split; [done|]. split_and!.
  - by rewrite length_fmap, length_map_to_list.
  - apply NoDup_fmap_2_strong; [|apply NoDup_map_to_list].
    intros [id1 ch1] [id2 ch2] H1%elem_of_map_to_list H2%elem_of_map_to_list Heq.
    simpl in Heq. subst.
    destruct (inv_channel _ Hinv _ _ H1) as [<- _].
    by destruct (inv_channel _ Hinv _ _ H2) as [<- _].
  - intros ch. rewrite list_elem_of_fmap. split.
    + intros ([id ch'] & -> & Hin%elem_of_map_to_list). simpl.
      by destruct (inv_channel _ Hinv _ _ Hin) as [-> _].
    + intros Hch. exists (Channel_ID ch, ch). split; [done|].
      by apply elem_of_map_to_list.
Qed.

End Handlers.

End APIFacts.

(** ** The further properties on runs *)

Section HubRuns.

Import Scenario Runs2.

Local Abbreviation U := SampleCodec.Unmarshal.
Local Abbreviation M := SampleCodec.Marshal.


(** The full mailbox holds 256 payloads and two more broadcasts do not
    change that. *)
Example full_mailbox_stays_full :
  let w := world_of (one_full ++ replicate 2 (InRead 0 (ReadMsg hi) noon)) in
  length (pending w 0) = 256 ∧ length (pending w 1) = 256.
Proof. by vm_compute. Qed.

Lemma publish_stays_in_channel_witness :
  let w := world_of two_channels in
  reaches U M w (trace_of two_channels) ∧ heap w !! 0 = Some (client_at w 0) ∧
  readPump_iter U M 0 (ReadMsg spoof) noon w
    = Ok (world_after spoof_turn, events_of spoof_turn) ∧
  ∀ c' cl', heap w !! c' = Some cl' → channelID cl' ≠ channelID (client_at w 0) →
    heap (world_after spoof_turn) !! c' = Some cl' ∧
    ∀ m, EvSend c' m ∉ events_of spoof_turn.
Proof.
  assert (reaches U M (world_of two_channels) (trace_of two_channels)) as Hreach.
  { apply (run_from_start_reaches two_channels). vm_compute. reflexivity. }
  assert (heap (world_of two_channels) !! 0 = Some (client_at (world_of two_channels) 0))
    as Hcl.
  { vm_compute. reflexivity. }
  assert (readPump_iter U M 0 (ReadMsg spoof) noon (world_of two_channels)
          = Ok (world_after spoof_turn, events_of spoof_turn)) as Hturn.
  { vm_compute. reflexivity. }
  split; [exact Hreach|]. split; [exact Hcl|]. split; [exact Hturn|].
  exact (publish_stays_in_channel U M _ _ _ _ 0 _ spoof noon Hreach Hcl Hturn).
Defined.

(** The payload that names random is delivered in general, to its
    publisher, and the client in random gets nothing. *)
Example spoof_stays_in_general :
  ∃ out, M (mkWSMessage "message" "general" "mallory" "psst" "not-a-date") = Some out ∧
    pending (world_after spoof_turn) 0 = [out] ∧ pending (world_after spoof_turn) 1 = [].
Proof. eexists. split; by vm_compute. Qed.

Lemma read_error_unregisters_witness :
  let w := world_of two_joined in
  reaches U M w (trace_of two_joined) ∧ 0 ∈ readers w ∧
  ∃ w' ev cl,
    readPump_iter U M 0 (ReadErr true) noon w = Ok (w', ev) ∧
    heap w !! 0 = Some cl ∧
    heap w' !! 0 = Some (mkClient (mkConn true) (mkChan (buf (send cl)) 256 true)
                                  (channelID cl)) ∧
    (∀ T, 0 ∉ members_of w' T) ∧ (0 ∉ readers w') ∧ (writers w' = writers w) ∧
    (is_Some (channels w' !! channelID cl) ↔ members_of w (channelID cl) ≠ {[0]}) ∧
    ∀ c', c' ≠ 0 →
      heap w' !! c' = heap w !! c' ∧
      (c' ∈ readers w' ↔ c' ∈ readers w) ∧
      ∀ T, c' ∈ members_of w' T ↔ c' ∈ members_of w T.
Proof.
  assert (reaches U M (world_of two_joined) (trace_of two_joined)) as Hreach.
  { apply (run_from_start_reaches two_joined). vm_compute. reflexivity. }
  assert (0 ∈ readers (world_of two_joined)) as Hrd.
  { vm_compute. reflexivity. }
  split; [exact Hreach|]. split; [exact Hrd|].
  exact (read_error_unregisters U M _ _ 0 true noon Hreach Hrd).
Defined.

Lemma outbound_loop_ends_after_inbound_witness :
  let w := world_of reader_gone in
  reaches U M w (trace_of reader_gone) ∧ 0 ∈ writers w ∧ (0 ∉ readers w) ∧
  enabled w (InWrite 0 false) = true ∧
  ∀ write_ok w' ev,
    enabled w (InWrite 0 write_ok) = true →
    writePump_iter 0 write_ok w = Ok (w', ev) →
    (0 ∉ writers w') ∧ phase w' 0 = Closed.
Proof.
  assert (reaches U M (world_of reader_gone) (trace_of reader_gone)) as Hreach.
  { apply (run_from_start_reaches reader_gone). vm_compute. reflexivity. }
  assert (0 ∈ writers (world_of reader_gone)) as Hwr.
  { vm_compute. reflexivity. }
  assert (0 ∉ readers (world_of reader_gone)) as Hnrd.
  { vm_compute. discriminate. }
  split; [exact Hreach|]. split; [exact Hwr|]. split; [exact Hnrd|].
  exact (outbound_loop_ends_after_inbound U M _ _ 0 Hreach Hwr Hnrd).
Defined.

Lemma mailbox_closed_once_witness :
  let w := world_of reader_gone in
  reaches U M w (trace_of reader_gone) ∧
  closes_of 0 (trace_of reader_gone)
    = if decide (is_Some (heap w !! 0) ∧ 0 ∉ readers w) then 1 else 0.
Proof.
  assert (reaches U M (world_of reader_gone) (trace_of reader_gone)) as Hreach.
  { apply (run_from_start_reaches reader_gone). vm_compute. reflexivity. }
  split; [exact Hreach|]. exact (mailbox_closed_once U M _ _ 0 Hreach).
Defined.

(** After the read failed the mailbox was closed once; a client whose
    loops run has had no close. *)
Example closes_counted :
  closes_of 0 (trace_of reader_gone) = 1 ∧ closes_of 0 (trace_of two_published) = 0.
Proof. by vm_compute. Qed.

Lemma HandleWebSocket_registers_new_client_witness :
  let w := world_of one_joined in
  reaches U M w (trace_of one_joined) ∧ "random" ≠ "" ∧
  ∃ w' ev,
    HandleWebSocket "random" Upgraded w = Ok (w', ev) ∧
    heap w !! next w = None ∧
    heap w' !! next w = Some (mkClient (mkConn false) (mkChan [] 256 false) "random") ∧
    (∀ T, next w ∈ members_of w' T ↔ T = "random") ∧
    phase w' (next w) = Active ∧
    ∀ c', c' ≠ next w →
      heap w' !! c' = heap w !! c' ∧
      (c' ∈ readers w' ↔ c' ∈ readers w) ∧ (c' ∈ writers w' ↔ c' ∈ writers w) ∧
      ∀ T, c' ∈ members_of w' T ↔ c' ∈ members_of w T.
Proof.
  assert (reaches U M (world_of one_joined) (trace_of one_joined)) as Hreach.
  { apply (run_from_start_reaches one_joined). vm_compute. reflexivity. }
  assert ("random" ≠ "") as Hne.
  { discriminate. }
  split; [exact Hreach|]. split; [exact Hne|].
  exact (HandleWebSocket_registers_new_client U M _ _ "random" Hreach Hne).
Defined.

Lemma Broadcast_range_order_irrelevant_witness :
  let w := world_of two_joined in
  [0; 1] ≡ₚ [1; 0] ∧ NoDup [0; 1] ∧
  (∀ c, c ∈ [0; 1] → ∃ cl, heap w !! c = Some cl ∧ closed (send cl) = false) ∧
  ∃ w', Broadcast_range [0; 1] hi_out w = Ok (w', offer_event (heap w) hi_out <$> [0; 1]) ∧
        Broadcast_range [1; 0] hi_out w = Ok (w', offer_event (heap w) hi_out <$> [1; 0]).
Proof.
  assert ([0; 1] ≡ₚ [1; 0]) as Hperm.
  { apply perm_swap. }
  assert (NoDup [0; 1]) as Hnd.
  { apply (bool_decide_unpack _). vm_compute. exact I. }
  assert (∀ c, c ∈ [0; 1] →
            ∃ cl, heap (world_of two_joined) !! c = Some cl ∧ closed (send cl) = false)
    as Hopen.
  { intros c Hc. apply elem_of_cons in Hc as [->|Hc];
      [|apply list_elem_of_singleton in Hc as ->];
      eexists; split; vm_compute; reflexivity. }
  split; [exact Hperm|]. split; [exact Hnd|]. split; [exact Hopen|].
  exact (Broadcast_range_order_irrelevant hi_out [0; 1] [1; 0] _ Hperm Hnd Hopen).
Defined.

End HubRuns.

Module APIRuns.

Import API Runs2.

Local Open Scope Z_scope.

Local Abbreviation D1 := SampleAPI.decode_channel.
Local Abbreviation D2 := SampleAPI.decode_message.

(** The state after the four calls of [chat]. *)
Example chat_state :
  SampleAPI.state_of chat
  = mkAPI {[ "1" := general ]} {[ "1" := chat_messages ]} 1 3.
Proof. by vm_compute. Qed.

Lemma chat_state_inv : api_inv (SampleAPI.state_of chat).
Proof.
  apply (APIFacts.serve_all_inv D1 D2 chat NewAPI _ (responses_of chat));
    [apply APIFacts.api_inv_NewAPI|by vm_compute..].
Qed.

Lemma getMessages_page_witness :
  let a := SampleAPI.state_of chat in
  let r := SampleAPI.get messages_path [("page", "2"); ("limit", "2")] in
  channels a !! "1" = Some general ∧
  page_of (Query_Get r "page") * limit_of (Query_Get r "limit") ≤ maxInt ∧
  getMessages a r "1" =
    Ok (a, mkResponse 200
             (JSONPage (mkPaginatedMessages
                (take (Z.to_nat (limit_of (Query_Get r "limit")))
                   (drop (Z.to_nat ((page_of (Query_Get r "page") - 1)
                                    * limit_of (Query_Get r "limit")))
                      (default [] (messages a !! "1"))))
                (page_of (Query_Get r "page")) (limit_of (Query_Get r "limit"))
                (Z.of_nat (length (default [] (messages a !! "1"))))))).
Proof.
  assert (channels (SampleAPI.state_of chat) !! "1" = Some general) as Hch.
  { vm_compute. reflexivity. }
  assert (page_of (Query_Get (SampleAPI.get messages_path [("page", "2"); ("limit", "2")])
                             "page")
          * limit_of (Query_Get (SampleAPI.get messages_path [("page", "2"); ("limit", "2")])
                                "limit") ≤ maxInt) as Hfit.
  { vm_compute. discriminate. }
  split; [exact Hch|]. split; [exact Hfit|].
  exact (APIFacts.getMessages_page _ _ "1" general Hch Hfit).
Defined.

(** The second page of two is the third message alone. *)
Example second_page :
  messages_of (getMessages (SampleAPI.state_of chat)
                 (SampleAPI.get messages_path [("page", "2"); ("limit", "2")]) "1")
  = [mkMessage "3" "1" "hey" "carol" 103].
Proof. by vm_compute. Qed.

Lemma getMessages_bounds_witness :
  let a := SampleAPI.state_of chat in
  let r := SampleAPI.get messages_path [("limit", "1000")] in
  let p := mkPaginatedMessages chat_messages 1 20 3 in
  getMessages a r "1" = Ok (a, mkResponse 200 (JSONPage p)) ∧
  Written (mkResponse 200 (JSONPage p)) = JSONPage p ∧
  a = a ∧ Status (mkResponse 200 (JSONPage p)) = 200 ∧
  1 ≤ Page p ∧ 1 ≤ Limit p ≤ 100 ∧
  Z.of_nat (length (Messages p)) ≤ Limit p ∧
  Messages p `sublist_of` default [] (messages a !! "1") ∧
  Total p = Z.of_nat (length (default [] (messages a !! "1"))) ∧
  (∀ n, Atoi (Query_Get r "limit") = Some n → ¬ (1 ≤ n ≤ 100) → Limit p = 20).
Proof.
  assert (getMessages (SampleAPI.state_of chat)
            (SampleAPI.get messages_path [("limit", "1000")]) "1"
          = Ok (SampleAPI.state_of chat,
                mkResponse 200 (JSONPage (mkPaginatedMessages chat_messages 1 20 3))))
    as Hrun.
  { vm_compute. reflexivity. }
  split; [exact Hrun|]. split; [reflexivity|].
  exact (APIFacts.getMessages_bounds _ _ _ "1" _ _ Hrun eq_refl).
Defined.

Lemma pages_partition_messages_witness :
  let a := SampleAPI.state_of chat in
  channels a !! "1" = Some general ∧ messages a !! "1" = Some chat_messages ∧
  1 ≤ 2 ≤ 100 ∧ Z.of_nat 2 * 2 ≤ maxInt ∧
  concat ((λ k : nat,
             messages_of (getMessages a (page_request messages_path (Z.of_nat k + 1) 2) "1"))
            <$> seq 0 2)
  = take (2 * Z.to_nat 2)%nat chat_messages ∧
  ((length chat_messages ≤ 2 * Z.to_nat 2)%nat →
   concat ((λ k : nat,
              messages_of (getMessages a (page_request messages_path (Z.of_nat k + 1) 2) "1"))
             <$> seq 0 2) = chat_messages).
Proof.
  assert (channels (SampleAPI.state_of chat) !! "1" = Some general) as Hch.
  { vm_compute. reflexivity. }
  assert (messages (SampleAPI.state_of chat) !! "1" = Some chat_messages) as Hmsgs.
  { vm_compute. reflexivity. }
  assert (1 ≤ 2 ≤ 100) as Hlimit.
  { lia. }
  assert (Z.of_nat 2 * 2 ≤ maxInt) as Hfit.
  { vm_compute. discriminate. }
  split; [exact Hch|]. split; [exact Hmsgs|]. split; [exact Hlimit|]. split; [exact Hfit|].
  exact (APIFacts.pages_partition_messages _ messages_path "1" general chat_messages 2 2
           Hch Hmsgs Hlimit Hfit).
Defined.

Lemma getMessages_overflow_panics_witness :
  let a := SampleAPI.state_of chat in
  let r := SampleAPI.get messages_path [("page", "92233720368547760"); ("limit", "100")] in
  channels a !! "1" = Some general ∧
  wrap (wrap (page_of (Query_Get r "page") - 1) * limit_of (Query_Get r "limit")) < 0 ∧
  getMessages a r "1" = Panic "slice bounds out of range".
Proof.
  assert (channels (SampleAPI.state_of chat) !! "1" = Some general) as Hch.
  { vm_compute. reflexivity. }
  assert (wrap (wrap (page_of (Query_Get
                   (SampleAPI.get messages_path
                      [("page", "92233720368547760"); ("limit", "100")]) "page") - 1)
                * limit_of (Query_Get
                   (SampleAPI.get messages_path
                      [("page", "92233720368547760"); ("limit", "100")]) "limit")) < 0)
    as Hneg.
  { vm_compute. reflexivity. }
  split; [exact Hch|]. split; [exact Hneg|].
  exact (APIFacts.getMessages_overflow_panics _ _ "1" general Hch Hneg).
Defined.

Lemma handleChannelByID_routes_witness :
  let a := SampleAPI.state_of chat in
  let r := SampleAPI.get "/api/channels/1/" [] in
  "1" ≠ "" ∧ has_char slash "1" = false ∧
  (URL_Path r = "/api/channels/" +:+ "1" →
   handleChannelByID D2 a r 104 =
     if decide (Method r = "GET") then Ok (getChannel a "1")
     else Ok (a, mkResponse 405 (Text "Method not allowed"))) ∧
  (URL_Path r = "/api/channels/" +:+ "1" +:+ "/messages" →
   handleChannelByID D2 a r 104 =
     if decide (Method r = "GET") then getMessages a r "1"
     else if decide (Method r = "POST") then Ok (sendMessage D2 a r "1" 104)
     else Ok (a, mkResponse 405 (Text "Method not allowed"))) ∧
  (∀ x, x ≠ "messages" → URL_Path r = "/api/channels/" +:+ "1" +:+ String slash x →
   handleChannelByID D2 a r 104 = Ok (a, mkResponse 404 (Text "Not found"))) ∧
  (∀ x, URL_Path r = "/api/channels/" ∨ URL_Path r = "/api/channels/" +:+ String slash x →
   handleChannelByID D2 a r 104 = Ok (a, mkResponse 400 (Text "Channel ID required"))).
Proof.
  assert ("1" ≠ "") as Hid.
  { discriminate. }
  assert (has_char slash "1" = false) as Hfree.
  { reflexivity. }
  split; [exact Hid|]. split; [exact Hfree|].
  exact (APIFacts.handleChannelByID_routes D2 _ _ 104 "1" Hid Hfree).
Defined.

(** A slash after the id is one segment too many. *)
Example trailing_slash_not_found :
  handleChannelByID D2 (SampleAPI.state_of chat) (SampleAPI.get "/api/channels/1/" []) 104
  = Ok (SampleAPI.state_of chat, mkResponse 404 (Text "Not found")).
Proof. by vm_compute. Qed.

Lemma state_changes_only_on_created_witness :
  let a := SampleAPI.state_of chat in
  let c := say "" "dave" 104 in
  let resp := mkResponse 400 (Text "Message content is required") in
  serve D1 D2 a c = Ok (a, resp) ∧
  (Status resp ≠ 201 → a = a) ∧ (Method (request_of c) ≠ "POST" → a = a).
Proof.
  assert (serve D1 D2 (SampleAPI.state_of chat) (say "" "dave" 104)
          = Ok (SampleAPI.state_of chat,
                mkResponse 400 (Text "Message content is required"))) as Hrun.
  { vm_compute. reflexivity. }
  split; [exact Hrun|].
  exact (APIFacts.state_changes_only_on_created D1 D2 _ _ _ _ Hrun).
Defined.

Lemma reached_states_in_order_witness :
  Z.of_nat (length chat) ≤ maxInt ∧
  API.serve_all D1 D2 NewAPI chat = Ok (SampleAPI.state_of chat, responses_of chat) ∧
  api_inv (SampleAPI.state_of chat).
Proof.
  assert (Z.of_nat (length chat) ≤ maxInt) as Hlen.
  { vm_compute. discriminate. }
  assert (API.serve_all D1 D2 NewAPI chat
          = Ok (SampleAPI.state_of chat, responses_of chat)) as Hrun.
  { vm_compute. reflexivity. }
  split; [exact Hlen|]. split; [exact Hrun|].
  exact (APIFacts.reached_states_in_order D1 D2 chat _ _ Hlen Hrun).
Defined.

Lemma reached_ids_increasing_witness :
  Z.of_nat (length chat) ≤ maxInt ∧
  API.serve_all D1 D2 NewAPI chat = Ok (SampleAPI.state_of chat, responses_of chat) ∧
  ids_increasing (SampleAPI.state_of chat).
Proof.
  assert (Z.of_nat (length chat) ≤ maxInt) as Hlen.
  { vm_compute. discriminate. }
  assert (API.serve_all D1 D2 NewAPI chat
          = Ok (SampleAPI.state_of chat, responses_of chat)) as Hrun.
  { vm_compute. reflexivity. }
  split; [exact Hlen|]. split; [exact Hrun|].
  exact (APIFacts.reached_ids_increasing D1 D2 chat _ _ Hlen Hrun).
Defined.

Lemma created_channel_is_new_and_found_witness :
  let a := SampleAPI.state_of chat in
  let r := SampleAPI.post "/api/channels" [("name", "random")] in
  let req := mkCreateChannelRequest "random" in
  api_inv a ∧ channelSeq a < maxInt ∧ Method r = "POST" ∧
  D1 (Body r) = Some req ∧ Req_Name req ≠ "" ∧
  ∃ a' ch,
    handleChannels D1 a r 105 = Ok (a', mkResponse 201 (JSONChannel ch)) ∧
    ch = mkChannel (Itoa (channelSeq a + 1)) (Req_Name req) 105 ∧
    channels a !! Channel_ID ch = None ∧
    channels a' !! Channel_ID ch = Some ch ∧
    messages a' !! Channel_ID ch = Some [] ∧
    (∀ id, id ≠ Channel_ID ch →
       channels a' !! id = channels a !! id ∧ messages a' !! id = messages a !! id) ∧
    ∀ r' now', Method r' = "GET" → URL_Path r' = "/api/channels/" +:+ Channel_ID ch →
      handleChannelByID D2 a' r' now' = Ok (a', mkResponse 200 (JSONChannel ch)).
Proof.
  assert (channelSeq (SampleAPI.state_of chat) < maxInt) as Hroom.
  { vm_compute. reflexivity. }
  assert (Method (SampleAPI.post "/api/channels" [("name", "random")]) = "POST") as Hpost.
  { reflexivity. }
  assert (D1 (Body (SampleAPI.post "/api/channels" [("name", "random")]))
          = Some (mkCreateChannelRequest "random")) as Hreq.
  { vm_compute. reflexivity. }
  assert (Req_Name (mkCreateChannelRequest "random") ≠ "") as Hname.
  { simpl. discriminate. }
  split; [exact chat_state_inv|]. split; [exact Hroom|]. split; [exact Hpost|].
  split; [exact Hreq|]. split; [exact Hname|].
  exact (APIFacts.created_channel_is_new_and_found D1 D2 _ _ 105 _
           chat_state_inv Hroom Hpost Hreq Hname).
Defined.

Lemma sent_message_is_appended_witness :
  let a := SampleAPI.state_of chat in
  let r := SampleAPI.post messages_path [("content", "bye"); ("author", "alice")] in
  let req := mkCreateMessageRequest "bye" "alice" in
  api_inv a ∧ messageSeq a < maxInt ∧ Method r = "POST" ∧
  URL_Path r = "/api/channels/" +:+ "1" +:+ "/messages" ∧
  channels a !! "1" = Some general ∧
  D2 (Body r) = Some req ∧ Req_Content req ≠ "" ∧ Req_Author req ≠ "" ∧
  ∃ a' old m,
    handleChannelByID D2 a r 106 = Ok (a', mkResponse 201 (JSONMessage m)) ∧
    m = mkMessage (Itoa (messageSeq a + 1)) "1" (Req_Content req) (Req_Author req) 106 ∧
    messages a !! "1" = Some old ∧
    messages a' !! "1" = Some (old ++ [m]) ∧
    channels a' = channels a ∧
    (∀ id', id' ≠ "1" → messages a' !! id' = messages a !! id') ∧
    (∀ id' msgs m', messages a !! id' = Some msgs → m' ∈ msgs →
       Message_ID m' ≠ Message_ID m).
Proof.
  assert (messageSeq (SampleAPI.state_of chat) < maxInt) as Hroom.
  { vm_compute. reflexivity. }
  assert (Method (SampleAPI.post messages_path [("content", "bye"); ("author", "alice")])
          = "POST") as Hpost.
  { reflexivity. }
  assert (URL_Path (SampleAPI.post messages_path [("content", "bye"); ("author", "alice")])
          = "/api/channels/" +:+ "1" +:+ "/messages") as Hpath.
  { reflexivity. }
  assert (channels (SampleAPI.state_of chat) !! "1" = Some general) as Hch.
  { vm_compute. reflexivity. }
  assert (D2 (Body (SampleAPI.post messages_path [("content", "bye"); ("author", "alice")]))
          = Some (mkCreateMessageRequest "bye" "alice")) as Hreq.
  { vm_compute. reflexivity. }
  assert (Req_Content (mkCreateMessageRequest "bye" "alice") ≠ "") as Hcontent.
  { simpl. discriminate. }
  assert (Req_Author (mkCreateMessageRequest "bye" "alice") ≠ "") as Hauthor.
  { simpl. discriminate. }
  split; [exact chat_state_inv|]. split; [exact Hroom|]. split; [exact Hpost|].
  split; [exact Hpath|]. split; [exact Hch|]. split; [exact Hreq|].
  split; [exact Hcontent|]. split; [exact Hauthor|].
  exact (APIFacts.sent_message_is_appended D2 _ _ 106 "1" general _
           chat_state_inv Hroom Hpost Hpath Hch Hreq Hcontent Hauthor).
Defined.

Lemma listed_channels_are_the_stored_witness :
  let a := SampleAPI.state_of chat in
  let r := SampleAPI.get "/api/channels" [] in
  api_inv a ∧ Method r = "GET" ∧
  ∃ listed,
    handleChannels D1 a r 107 = Ok (a, mkResponse 200 (JSONChannels listed)) ∧
    length listed = size (channels a) ∧ NoDup listed ∧
    ∀ ch, ch ∈ listed ↔ channels a !! Channel_ID ch = Some ch.
Proof.
  assert (Method (SampleAPI.get "/api/channels" []) = "GET") as Hget.
  { reflexivity. }
  split; [exact chat_state_inv|]. split; [exact Hget|].
  exact (APIFacts.listed_channels_are_the_stored D1 _ _ 107 chat_state_inv Hget).
Defined.

End APIRuns.
